(** * A quiz bot for Telegram: progress tracking and task dispatch

    Shallow embedding of the two builds of the bot kept in the repository:

    - [Reconciled]: [src/main.go], where progress lives in the PostgreSQL
      table [user_progress] and [progressCache] is a read cache that every
      write invalidates;
    - [CacheOnly]: [src/unnamed/part_000], where [progressCache] is the only
      record of progress.

    Everything outside the coordinator ([getUserProgress] and
    [saveUserProgress]) is the same text in both files and is embedded once,
    in the section [Handlers].

    Modelling conventions.
    - Go's [int] and [int64] are 64-bit two's complement integers; they are
      modelled as [Z], with the range written out where it matters
      ([Go.is_int]).
    - A Go [string] is a sequence of bytes: Rocq's [string].
    - A Go [map[int]bool] is a reference to a mutable object.  Map objects
      live in a heap ([list (gmap Z bool)], a reference is an index) so that
      two holders of one reference see each other's writes.
    - The process handles one update at a time ([processUpdates] starts no
      goroutine), so the handlers are sequential state transformers.
    - The database is outside the program.  What it answers when asked is
      an input of each handler ([StoreEnv]): a write either succeeds or
      reports an error and then leaves the table as it was; a query fails,
      or delivers every row of the user, or has its row iteration cut
      short ([rows.Next] returns false on a driver or deadline error that
      only [rows.Err] would tell, and the source never reads it).  Nothing
      but this process writes to the table.
    - Outbound traffic (messages, callback answers, log lines) is returned
      by each handler as a list of [Outbound] requests, in order.  Whether
      Telegram delivers them is not modelled. *)

From Stdlib Require Import ZArith String Ascii Floats Lia.
From stdpp Require Import gmap strings list fin_maps.

Local Open Scope Z_scope.

(** ** The parts of Go's library the program calls *)

Module Go.

Definition MinInt : Z := - 2 ^ 63.
Definition MaxInt : Z := 2 ^ 63 - 1.

(** The values of Go's [int] on a 64-bit platform. *)
Definition is_int (n : Z) : Prop := MinInt ≤ n ≤ MaxInt.

Definition newline : string := String (ascii_of_nat 10) EmptyString.

(** The byte ['0' + d]. *)
Definition digitChar (d : Z) : ascii := ascii_of_nat (Z.to_nat (48 + d)).

(** [strconv.formatBits] in base 10: the digits of [u] are produced from
    the least significant one and pushed in front of [acc].  [fuel] bounds
    the number of digits. *)
Fixpoint formatBits (fuel : nat) (u : Z) (acc : string) : string :=
  match fuel with
  | O => acc
  | S fuel' =>
      if u <? 10 then String (digitChar u) acc
      else formatBits fuel' (u / 10) (String (digitChar (u mod 10)) acc)
  end.

Definition formatUint (u : Z) : string :=
  formatBits (S (Z.to_nat (Z.log2 u))) u EmptyString.

(** The verb [%d] of [fmt.Sprintf] at an integer. *)
Definition formatInt (n : Z) : string :=
  if n <? 0 then String "-"%char (formatUint (- n)) else formatUint n.

(** The value of a decimal digit byte; [None] for any other byte. *)
Definition digitVal (ch : ascii) : option Z :=
  let c := Z.of_nat (nat_of_ascii ch) in
  if (48 <=? c) && (c <=? 57) then Some (c - 48) else None.

(** The digit loop of [strconv.Atoi]: [n = n*10 + int(ch - '0')], a syntax
    error at the first byte that is no digit. *)
Fixpoint parseDigits (s : string) (n : Z) : option Z :=
  match s with
  | EmptyString => Some n
  | String ch rest =>
      match digitVal ch with
      | Some d => parseDigits rest (n * 10 + d)
      | None => None
      end
  end.

(** [strconv.Atoi]: an optional sign, at least one digit, nothing else, and
    a value that fits [int]; [None] stands for a non-nil error. *)
Definition Atoi (s : string) : option Z :=
  match s with
  | EmptyString => None
  | String c rest =>
      let neg := Ascii.eqb c "-"%char in
      let digits := if neg || Ascii.eqb c "+"%char then rest else s in
      match digits with
      | EmptyString => None
      | _ =>
          match parseDigits digits 0 with
          | None => None
          | Some un =>
              let n := if neg then - un else un in
              if (MinInt <=? n) && (n <=? MaxInt) then Some n else None
          end
      end
  end.

(** [strings.Cut(s, sep)] for a one-byte separator: the text before and
    after the first [sep], when there is one. *)
Fixpoint cut (sep : ascii) (s : string) : option (string * string) :=
  match s with
  | EmptyString => None
  | String c rest =>
      if Ascii.eqb c sep then Some (EmptyString, rest)
      else match cut sep rest with
           | Some (before, after) => Some (String c before, after)
           | None => None
           end
  end.

(** No byte of [s] is [sep]. *)
Fixpoint sepFree (sep : ascii) (s : string) : bool :=
  match s with
  | EmptyString => true
  | String c rest => negb (Ascii.eqb c sep) && sepFree sep rest
  end.

(** [strings.SplitN(s, sep, 2)] for a one-byte separator: [s] alone when it
    holds no separator, else the two sides of the first one. *)
Definition SplitN2 (s : string) (sep : ascii) : list string :=
  match cut sep s with
  | Some (before, after) => [before; after]
  | None => [s]
  end.

(** [float64(n)] for an [int] [n]. *)
Definition float64 (n : Z) : float :=
  if n <? 0 then PrimFloat.opp (PrimFloat.of_uint63 (Uint63.of_Z (- n)))
  else PrimFloat.of_uint63 (Uint63.of_Z n).

(** The quotient [num / den] of non-negative integers rounded to the
    nearest integer, ties to even. *)
Definition roundHalfEven (num den : Z) : Z :=
  let q := num / den in
  let r := num mod den in
  if 2 * r <? den then q
  else if den <? 2 * r then q + 1
  else if Z.even q then q else q + 1.

(** The exact value [m * 2^e], times ten, rounded to the nearest integer,
    ties to even: the digits [strconv.FormatFloat(x, 'f', 1, 64)] keeps.
    For a negative exponent the quotient and the remainder by [2^(-e)] are
    taken by shifting and masking. *)
Definition roundTenths (m : positive) (e : Z) : Z :=
  let n := Z.pos m * 10 in
  if 0 <=? e then Z.shiftl n e
  else
    let q := Z.shiftr n (- e) in
    let r := Z.land n (Z.ones (- e)) in
    let half := Z.shiftl 1 (- e - 1) in
    if r <? half then q
    else if half <? r then q + 1
    else if Z.even q then q else q + 1.

(** A number of tenths written with one digit after the point. *)
Definition renderTenths (t : Z) : string :=
  formatUint (t / 10) +:+ "." +:+ formatUint (t mod 10).

(** The fraction [num / den] written with one digit after the point. *)
Definition decimal1 (num den : Z) : string :=
  renderTenths (roundHalfEven (10 * num) den).

Definition signText (s : bool) : string := if s then "-" else "".

(** The verb [%.1f] of [fmt.Sprintf] at a [float64]. *)
Definition formatF1 (x : float) : string :=
  match Prim2SF x with
  | S754_zero s => signText s +:+ renderTenths 0
  | S754_infinity s => if s then "-Inf" else "+Inf"
  | S754_nan => "NaN"
  | S754_finite s m e => signText s +:+ renderTenths (roundTenths m e)
  end.

End Go.

(** ** The task catalog and the dispatch rules *)

Record Task := mkTask {
  ID : Z;
  Text : string;
  Answer : string;
  Options : list string
}.

Definition getTasks : list Task :=
  [ mkTask 1 "Какой оператор используется для объявления переменной в Go?"
      "var" ["let"; "const"; "var"; "define"];
    mkTask 2 "Какой тип данных используется для целых чисел в Go?"
      "int" ["integer"; "float"; "int"; "number"];
    mkTask 3 "Какой тип данных используется для строк в Go?"
      "string" ["char"; "string"; "text"; "varchar"];
    mkTask 4 "Какая директива используется для импорта пакетов в Go?"
      "import" ["include"; "import"; "use"; "require"];
    mkTask 5 "Что выводит команда fmt.Println(1+1) в Go?"
      "2" ["1"; "2"; "3"; "Ошибка"] ]%string.

(** The loop of [findTask] over a task list. *)
Fixpoint findTaskIn (tasks : list Task) (taskID : Z) : option Task :=
  match tasks with
  | [] => None
  | t :: rest => if ID t =? taskID then Some t else findTaskIn rest taskID
  end.

Definition findTask (taskID : Z) : option Task := findTaskIn getTasks taskID.

(** Go's two-valued map read [v, ok := m[k]]: the zero value and [false]
    when the key is absent. *)
Definition mapIndex (m : gmap Z bool) (k : Z) : bool * bool :=
  match m !! k with
  | Some v => (v, true)
  | None => (false, false)
  end.

(** The loop of [getNextTask] over a task list and a progress map. *)
Fixpoint firstUnsolved (tasks : list Task) (progress : gmap Z bool) : option Task :=
  match tasks with
  | [] => None
  | t :: rest =>
      let '(solved, exists_) := mapIndex progress (ID t) in
      if negb exists_ || negb solved then Some t
      else firstUnsolved rest progress
  end.

(** The snapshot records the task as solved. *)
Definition solvedIn (progress : gmap Z bool) (t : Task) : Prop :=
  progress !! ID t = Some true.

#[global] Instance solvedIn_dec progress t : Decision (solvedIn progress t) :=
  decide (progress !! ID t = Some true).

(** [parts[1] == task.Answer] in [handleCallbackQuery]. *)
Definition answerCorrect (task : Task) (submitted : string) : bool :=
  String.eqb submitted (Answer task).

(** [fmt.Sprintf("%d:%s", task.ID, option)] in [sendTask]. *)
Definition callbackData (task : Task) (option : string) : string :=
  Go.formatInt (ID task) +:+ ":" +:+ option.

(** The head of [handleCallbackQuery]: split the callback data at the first
    colon and read the task identity; [None] where the handler logs and
    returns. *)
Definition parseCallback (data : string) : option (Z * string) :=
  match Go.SplitN2 data ":"%char with
  | [p0; p1] =>
      match Go.Atoi p0 with
      | Some taskID => Some (taskID, p1)
      | None => None
      end
  | _ => None
  end.

(** The counting loop of [showProgress]. *)
Definition countSolved (progress : gmap Z bool) : Z :=
  map_fold (λ _ (v : bool) solved, if v then solved + 1 else solved) 0 progress.

(** The number of entries of a progress map that are [true]. *)
Definition solvedCount (progress : gmap Z bool) : nat :=
  size (filter (λ kv : Z * bool, kv.2 = true) progress).

(** The percentage of [showProgress]:
    [float64(solved)/float64(total)*100]. *)
Definition percent (solved total : Z) : float :=
  PrimFloat.mul (PrimFloat.div (Go.float64 solved) (Go.float64 total)) 100%float.

(** The text [showProgress] sends for a progress map. *)
Definition progressText (progress : gmap Z bool) : string :=
  let total := Z.of_nat (length getTasks) in
  let solved := countSolved progress in
  "Ваш прогресс: 📊" +:+ Go.newline +:+ Go.newline +:+
  "Решено задач: " +:+ Go.formatInt solved +:+ "/" +:+ Go.formatInt total +:+
  Go.newline +:+ "Прогресс: " +:+ Go.formatF1 (percent solved total) +:+ "%".

(** [check k] holds for every [k] from zero up to [bound], excluded. *)
Definition checkBelow (check : Z → bool) (bound : N) : bool :=
  (N.iter bound (λ '(k, ok), (k + 1, ok && check k)) (0, true)).2.

(** The tenths [%.1f] keeps of the percentage of [solved] out of the
    catalog are those of the exact fraction [solved * 100 / total]. *)
Definition percentExact (solved : Z) : bool :=
  let total := Z.of_nat (length getTasks) in
  let exact := Go.roundHalfEven (10 * (solved * 100)) total in
  match Prim2SF (percent solved total) with
  | S754_zero false => exact =? 0
  | S754_finite false m e => exact =? Go.roundTenths m e
  | _ => false
  end.

(** ** What the handlers exchange with the outside *)

(** The non-nil errors of the store calls, by the call that reported them. *)
Inductive error := ErrQuery | ErrScan | ErrExec.

(** Go's [(value, error)] result pair, where the value is meaningful only
    with a nil error. *)
Inductive result (A : Type) :=
| Ok (a : A)
| Err (e : error).
Arguments Ok {A} a.
Arguments Err {A} e.

(** A reference to a map object: its index in the heap. *)
Abbreviation loc := nat (only parsing).

(** Requests to the transport and to the logger.  A log line is recorded
    by its fixed part. *)
Inductive Outbound :=
| SendMessage (chatID : Z) (text : string)
| SendTask (chatID : Z) (text : string) (buttons : list (string * string))
| AnswerCallback (queryID : string) (text : string)
| Log (line : string).

Record CallbackQuery := mkQuery {
  QueryID : string;
  From : Z;
  Data : string
}.

(** What [processUpdates] tells apart in an update: a callback query, a
    message that is a command, anything else. *)
Inductive Update :=
| UpdCallback (query : CallbackQuery)
| UpdCommand (chatID : Z) (command : string)
| UpdOther.

Definition msgAllSolved : string := "Поздравляем! Вы решили все задачи 🎉".
Definition msgNoMoreTasks : string := "🎉 Вы решили все доступные задачи!".
Definition msgProgressError : string := "Ошибка получения прогресса 😕".
Definition msgUnknownCommand : string := "Неизвестная команда 🤷".
Definition msgCorrect : string := "Правильно! ✅".
Definition msgIncorrect : string := "Неверно ❌ Попробуйте еще раз!".
Definition logProgressError : string := "Ошибка получения прогресса: %v".
Definition logSaveError : string := "Ошибка сохранения прогресса: %v".
Definition logBadCallback : string := "Некорректный callback: %s".
Definition logBadTaskID : string := "Ошибка парсинга taskID: %v".
Definition logNoTask : string := "Задача %d не найдена".

Definition msgWelcome : string :=
  "Добро пожаловать в бота для изучения Go! 🚀" +:+ Go.newline +:+ Go.newline +:+
  "Используйте команды:" +:+ Go.newline +:+
  "/task - Получить новую задачу" +:+ Go.newline +:+
  "/progress - Показать прогресс".

(** The request [sendTask] builds: the prompt and one button per option,
    each carrying its label and its callback data. *)
Definition sendTask (chatID : Z) (task : Task) : Outbound :=
  SendTask chatID
    (Text task +:+ Go.newline +:+ Go.newline +:+ "Выберите правильный ответ:")
    ((λ option, (option, callbackData task option)) <$> Options task).

(** ** The handlers, over either coordinator

    [St] is the state the coordinator owns, [Env] what the store answers
    during one update.  [deref st r] is the content of the map object
    behind the reference [r]. *)

Section Handlers.

Context {St Env : Type}.
Variable getUserProgress : Env → St → Z → result loc * St.
Variable saveUserProgress : Env → St → Z → Z → bool → option error * St.
Variable deref : St → loc → gmap Z bool.

Definition getNextTask (env : Env) (st : St) (userID : Z)
  : option Task * list Outbound * St :=
  match getUserProgress env st userID with
  | (Err _, st') => (None, [Log logProgressError], st')
  | (Ok progress, st') => (firstUnsolved getTasks (deref st' progress), [], st')
  end.

Definition handleTaskCommand (env : Env) (st : St) (chatID : Z)
  : list Outbound * St :=
  match getNextTask env st chatID with
  | (None, out, st') => (out ++ [SendMessage chatID msgAllSolved], st')
  | (Some task, out, st') => (out ++ [sendTask chatID task], st')
  end.

Definition showProgress (env : Env) (st : St) (chatID : Z)
  : list Outbound * St :=
  match getUserProgress env st chatID with
  | (Err _, st') =>
      ([Log logProgressError; SendMessage chatID msgProgressError], st')
  | (Ok progress, st') =>
      ([SendMessage chatID (progressText (deref st' progress))], st')
  end.

Definition handleCommand (env : Env) (st : St) (chatID : Z) (command : string)
  : list Outbound * St :=
  if String.eqb command "start" then ([SendMessage chatID msgWelcome], st)
  else if String.eqb command "task" then handleTaskCommand env st chatID
  else if String.eqb command "progress" then showProgress env st chatID
  else ([SendMessage chatID msgUnknownCommand], st).

Definition handleCallbackQuery (env : Env) (st : St) (query : CallbackQuery)
  : list Outbound * St :=
  match Go.SplitN2 (Data query) ":"%char with
  | [p0; p1] =>
      match Go.Atoi p0 with
      | None => ([Log logBadTaskID], st)
      | Some taskID =>
          match findTask taskID with
          | None => ([Log logNoTask], st)
          | Some task =>
              let userID := From query in
              let correct := answerCorrect task p1 in
              let '(out1, st1) :=
                if correct then
                  match saveUserProgress env st userID (ID task) true with
                  | (Some _, st1) => ([Log logSaveError], st1)
                  | (None, st1) => ([], st1)
                  end
                else ([], st) in
              let out2 :=
                [AnswerCallback (QueryID query)
                   (if correct then msgCorrect else msgIncorrect)] in
              let '(out3, st3) :=
                if correct then
                  match getNextTask env st1 userID with
                  | (Some nextTask, out, st') => (out ++ [sendTask userID nextTask], st')
                  | (None, out, st') => (out ++ [SendMessage userID msgNoMoreTasks], st')
                  end
                else ([], st1) in
              (out1 ++ out2 ++ out3, st3)
          end
      end
  | _ => ([Log logBadCallback], st)
  end.

(** One turn of the loop of [processUpdates]. *)
Definition handleUpdate (env : Env) (st : St) (update : Update)
  : list Outbound * St :=
  match update with
  | UpdCallback query => handleCallbackQuery env st query
  | UpdCommand chatID command => handleCommand env st chatID command
  | UpdOther => ([], st)
  end.

(** [processUpdates] over the updates received so far, each with what the
    store answers while it is handled. *)
Fixpoint processUpdates (updates : list (Env * Update)) (st : St)
  : list Outbound * St :=
  match updates with
  | [] => ([], st)
  | (env, update) :: rest =>
      let '(out, st') := handleUpdate env st update in
      let '(outs, st'') := processUpdates rest st' in
      (out ++ outs, st'')
  end.

End Handlers.

(** ** The coordinator of [src/main.go]: table and read cache *)

Module Reconciled.

(** The table [user_progress], keyed by user and then by task (its primary
    key is the pair); the map objects allocated so far; the cache from user
    to the reference of that user's map. *)
Record State := mkState {
  db : gmap Z (gmap Z bool);
  heap : list (gmap Z bool);
  progressCache : gmap Z loc
}.

(** What [db.QueryContext] and the row loop meet: the query fails; or it
    returns the user's rows, [rows.Next] delivers each of them, and
    [rows.Scan] fails at row [k] (counted from zero) when
    [scanFails = Some k] and there is such a row; or the iteration is cut
    short: [rows.Next] delivers the rows of the tasks in [delivered] only
    and then returns false on an error that [rows.Err] holds.  The query
    has no [ORDER BY], so the rows delivered before a cut can be any of
    the user's rows. *)
Inductive QueryOutcome :=
| QueryFails
| QueryReturns (scanFails : option nat)
| QueryCut (delivered : list Z).

Inductive ExecOutcome := ExecOk | ExecFails.

Record StoreEnv := mkEnv {
  onExec : ExecOutcome;
  onQuery : QueryOutcome
}.

(** The store answers every statement. *)
Definition healthy : StoreEnv := mkEnv ExecOk (QueryReturns None).

(** [SELECT task_id, solved FROM user_progress WHERE user_id = $1]. *)
Definition selectProgress (table : gmap Z (gmap Z bool)) (userID : Z)
  : list (Z * bool) :=
  map_to_list (default ∅ (table !! userID)).

(** The [solved] column of the row of a user and a task, when the table
    holds that row. *)
Definition stored (table : gmap Z (gmap Z bool)) (userID taskID : Z) : option bool :=
  default ∅ (table !! userID) !! taskID.

(** [INSERT ... ON CONFLICT (user_id, task_id) DO UPDATE SET solved = $3]. *)
Definition upsertProgress (table : gmap Z (gmap Z bool)) (userID taskID : Z)
  (solved : bool) : gmap Z (gmap Z bool) :=
  <[userID := <[taskID := solved]> (default ∅ (table !! userID))]> table.

(** The rows [rows.Next] delivers before it returns false. *)
Definition rowsDelivered (answer : QueryOutcome) (rows : list (Z * bool))
  : list (Z * bool) :=
  match answer with
  | QueryCut delivered => filter (λ row : Z * bool, row.1 ∈ delivered) rows
  | _ => rows
  end.

(** The row at which [rows.Scan] fails, if any. *)
Definition scanFailure (answer : QueryOutcome) : option nat :=
  match answer with
  | QueryReturns scanFails => scanFails
  | _ => None
  end.

(** The loop [for rows.Next() { rows.Scan; progress[taskID] = solved }]
    over the rows [rows.Next] delivers.  The loop ends when [rows.Next]
    returns false; the source does not ask [rows.Err] why. *)
Fixpoint scanRows (rows : list (Z * bool)) (scanFails : option nat)
  (progress : gmap Z bool) : result (gmap Z bool) :=
  match rows with
  | [] => Ok progress
  | (taskID, solved) :: rest =>
      match scanFails with
      | Some O => Err ErrScan
      | _ => scanRows rest (Nat.pred <$> scanFails) (<[taskID := solved]> progress)
      end
  end.

Definition deref (st : State) (r : loc) : gmap Z bool :=
  default ∅ (heap st !! r).

(** The map under construction is local until it is stored, so it enters
    the heap when the loop has finished. *)
Definition getUserProgress (env : StoreEnv) (st : State) (userID : Z)
  : result loc * State :=
  match progressCache st !! userID with
  | Some cached => (Ok cached, st)
  | None =>
      match onQuery env with
      | QueryFails => (Err ErrQuery, st)
      | answer =>
          match scanRows (rowsDelivered answer (selectProgress (db st) userID))
                  (scanFailure answer) ∅ with
          | Err e => (Err e, st)
          | Ok progress =>
              let r := length (heap st) in
              (Ok r, mkState (db st) (heap st ++ [progress])
                             (<[userID := r]> (progressCache st)))
          end
      end
  end.

Definition saveUserProgress (env : StoreEnv) (st : State) (userID taskID : Z)
  (solved : bool) : option error * State :=
  let '(err, table) :=
    match onExec env with
    | ExecOk => (None, upsertProgress (db st) userID taskID solved)
    | ExecFails => (Some ErrExec, db st)
    end in
  (err, mkState table (heap st) (delete userID (progressCache st))).

(** The state after a read that went to the table and succeeded: a new map
    object holding the user's rows, and the cache pointing at it. *)
Definition loaded (st : State) (userID : Z) : State :=
  mkState (db st) (heap st ++ [default ∅ (db st !! userID)])
          (<[userID := length (heap st)]> (progressCache st)).

(** The state after a read stored the map [progress] for the user. *)
Definition cached (st : State) (userID : Z) (progress : gmap Z bool) : State :=
  mkState (db st) (heap st ++ [progress])
          (<[userID := length (heap st)]> (progressCache st)).

(** The map a read of the table builds from the user's rows when no scan
    fails: all of them, or the delivered ones when the iteration is cut. *)
Definition deliveredMap (answer : QueryOutcome) (rows : gmap Z bool) : gmap Z bool :=
  match answer with
  | QueryCut delivered => filter (λ row : Z * bool, row.1 ∈ delivered) rows
  | _ => rows
  end.

(** No row iteration is cut short under this answer of the store. *)
Definition complete (env : StoreEnv) : Prop :=
  match onQuery env with
  | QueryCut _ => False
  | _ => True
  end.

(** The table holds the task as solved for the user, and so does the
    user's cached map when there is one. *)
Definition durablySolved (userID taskID : Z) (st : State) : Prop :=
  stored (db st) userID taskID = Some true ∧
  ∀ r, progressCache st !! userID = Some r → deref st r !! taskID = Some true.

(** The process starts with an empty cache over whatever the table holds. *)
Definition init (table : gmap Z (gmap Z bool)) : State := mkState table [] ∅.

Definition run (updates : list (StoreEnv * Update)) (st : State) : State :=
  (processUpdates getUserProgress saveUserProgress deref updates st).2.

(** Every cached reference points at a map that holds the user's rows of
    the table. *)
Definition coherent (st : State) : Prop :=
  ∀ userID r, progressCache st !! userID = Some r →
              heap st !! r = Some (default ∅ (db st !! userID)).

(** Every cached reference points at a map whose entries are rows the
    table holds for the user. *)
Definition within (st : State) : Prop :=
  ∀ userID r, progressCache st !! userID = Some r →
              ∃ m, heap st !! r = Some m ∧ m ⊆ default ∅ (db st !! userID).

(** What a read hands to its caller: the content of the map, or the error. *)
Definition readContent (env : StoreEnv) (st : State) (userID : Z)
  : result (gmap Z bool) :=
  match getUserProgress env st userID with
  | (Ok r, st') => Ok (deref st' r)
  | (Err e, _) => Err e
  end.

(** Store answers used in examples: every statement fails; writes fail
    while reads succeed. *)
Definition outage : StoreEnv := mkEnv ExecFails QueryFails.
Definition writeFails : StoreEnv := mkEnv ExecFails (QueryReturns None).

(** Writes succeed and the row iteration of a read is cut after the rows of
    the tasks in [delivered]. *)
Definition cutAfter (delivered : list Z) : StoreEnv := mkEnv ExecOk (QueryCut delivered).

(** An example state: user 42 has solved task 1, and the cache holds a map
    that says so. *)
Definition sample : State :=
  mkState {[42 := {[1 := true]}]} [{[1 := true]}] {[42 := 0%nat]}.

End Reconciled.

(** ** The coordinator of [src/unnamed/part_000]: the cache alone *)

Module CacheOnly.

Record State := mkState {
  heap : list (gmap Z bool);
  progressCache : gmap Z loc
}.

Definition deref (st : State) (r : loc) : gmap Z bool :=
  default ∅ (heap st !! r).

Definition getUserProgress (_ : unit) (st : State) (userID : Z)
  : result loc * State :=
  match progressCache st !! userID with
  | Some cached => (Ok cached, st)
  | None =>
      let r := length (heap st) in
      (Ok r, mkState (heap st ++ [∅]) (<[userID := r]> (progressCache st)))
  end.

(** [progress[taskID] = solved] writes into the object the cache holds.
    The error of [getUserProgress] is dropped by the source; this build
    never returns one, so the second branch is never taken. *)
Definition saveUserProgress (env : unit) (st : State) (userID taskID : Z)
  (solved : bool) : option error * State :=
  match getUserProgress env st userID with
  | (Ok progress, st1) =>
      (None, mkState (alter (<[taskID := solved]>) progress (heap st1))
                     (<[userID := progress]> (progressCache st1)))
  | (Err e, st1) => (Some e, st1)
  end.

Definition init : State := mkState [] ∅.

(** The user's cached map holds the task as solved. *)
Definition solvedInCache (userID taskID : Z) (st : State) : Prop :=
  ∃ r, progressCache st !! userID = Some r ∧ deref st r !! taskID = Some true.

(** Every cached reference points into the heap. *)
Definition wf (st : State) : Prop :=
  ∀ userID r, progressCache st !! userID = Some r → (r < length (heap st))%nat.

Definition run (updates : list (unit * Update)) (st : State) : State :=
  (processUpdates getUserProgress saveUserProgress deref updates st).2.

(** Well formed, and no two users share a map object. *)
Definition separated (st : State) : Prop :=
  wf st ∧
  ∀ u u' r, progressCache st !! u = Some r → progressCache st !! u' = Some r → u = u'.

(** Every map object holds catalog tasks only, each as solved. *)
Definition catalogOnly (st : State) : Prop :=
  ∀ m, m ∈ heap st →
  ∀ k v, m !! k = Some v → v = true ∧ ∃ task, task ∈ getTasks ∧ ID task = k.

(** What a read hands to its caller: the content of the map, or the error. *)
Definition readContent (st : State) (userID : Z) : result (gmap Z bool) :=
  match getUserProgress tt st userID with
  | (Ok r, st') => Ok (deref st' r)
  | (Err e, _) => Err e
  end.

End CacheOnly.

(** * Properties *)

(** ** Decimal text of an integer and back *)

Section GoFacts.
Import Go.

(** Case analysis on a decimal digit. *)
Ltac digit_cases d :=
  let H := fresh in
  assert (H : d = 0 ∨ d = 1 ∨ d = 2 ∨ d = 3 ∨ d = 4 ∨
              d = 5 ∨ d = 6 ∨ d = 7 ∨ d = 8 ∨ d = 9) by lia;
  repeat (destruct H as [H | H]; [subst d | ]); [.. | subst d].

Lemma digitVal_digitChar d : 0 ≤ d < 10 → digitVal (digitChar d) = Some d.
Proof. intros Hd. digit_cases d; reflexivity. Qed.

Lemma digitChar_not_sign d (c : ascii) :
  0 ≤ d < 10 → c = "-"%char ∨ c = "+"%char ∨ c = ":"%char →
  Ascii.eqb (digitChar d) c = false.
Proof.
  intros Hd Hc. destruct Hc as [-> | [-> | ->]]; digit_cases d; reflexivity.
Qed.

Lemma pow10_succ (fuel : nat) : 10 ^ Z.of_nat (S fuel) = 10 * 10 ^ Z.of_nat fuel.
Proof. rewrite Nat2Z.inj_succ, Z.pow_succ_r; lia. Qed.

(** Reading the digits [formatBits] wrote gives the number back, carried
    into whatever follows. *)
Lemma parseDigits_formatBits fuel : ∀ u acc,
  0 ≤ u < 10 ^ Z.of_nat fuel →
  parseDigits (formatBits fuel u acc) 0 = parseDigits acc u.
Proof.
  induction fuel as [| fuel IH]; intros u acc Hu.
  - simpl in *. replace u with 0 by lia. reflexivity.
  - rewrite pow10_succ in Hu. simpl. destruct (Z.ltb_spec u 10) as [Hlt | Hge].
    + simpl. rewrite digitVal_digitChar by lia. reflexivity.
    + rewrite IH.
      * simpl. rewrite digitVal_digitChar by (apply Z.mod_pos_bound; lia).
        f_equal. pose proof (Z.div_mod u 10). lia.
      * split; [apply Z.div_pos; lia |].
        apply Z.div_lt_upper_bound; lia.
Qed.

Lemma formatUint_fuel u : 0 ≤ u → u < 10 ^ Z.of_nat (S (Z.to_nat (Z.log2 u))).
Proof.
  intros Hu. rewrite Nat2Z.inj_succ, Z2Nat.id by apply Z.log2_nonneg.
  destruct (Z.eq_dec u 0) as [-> | Hne]; [reflexivity |].
  pose proof (Z.log2_spec u) as [_ Hlt]; [lia |].
  eapply Z.lt_le_trans; [exact Hlt |].
  apply Z.pow_le_mono_l. lia.
Qed.

Lemma parseDigits_formatUint u : 0 ≤ u → parseDigits (formatUint u) 0 = Some u.
Proof.
  intros Hu. unfold formatUint.
  rewrite parseDigits_formatBits; [reflexivity |].
  split; [exact Hu | apply formatUint_fuel; exact Hu].
Qed.

(** The text of a natural number starts with a digit. *)
Lemma formatBits_head fuel : ∀ u acc, 0 ≤ u →
  ∃ d rest, 0 ≤ d < 10 ∧ formatBits (S fuel) u acc = String (digitChar d) rest.
Proof.
  induction fuel as [| fuel IH]; intros u acc Hu; simpl;
    destruct (Z.ltb_spec u 10) as [Hlt | Hge].
  - exists u, acc. split; [lia | reflexivity].
  - exists (u mod 10), acc. split; [apply Z.mod_pos_bound; lia | reflexivity].
  - exists u, acc. split; [lia | reflexivity].
  - apply (IH (u / 10)). apply Z.div_pos; lia.
Qed.

Lemma formatBits_sepFree fuel : ∀ u acc, 0 ≤ u →
  sepFree ":" acc = true → sepFree ":" (formatBits fuel u acc) = true.
Proof.
  induction fuel as [| fuel IH]; intros u acc Hu Hacc; simpl; [exact Hacc |].
  destruct (Z.ltb_spec u 10) as [Hlt | Hge].
  - simpl. rewrite digitChar_not_sign by (auto; lia). exact Hacc.
  - apply IH; [apply Z.div_pos; lia |]. simpl.
    rewrite digitChar_not_sign by (auto; apply Z.mod_pos_bound; lia). exact Hacc.
Qed.

Lemma formatInt_sepFree n : sepFree ":" (formatInt n) = true.
Proof.
  unfold formatInt, formatUint. destruct (Z.ltb_spec n 0).
  - change (sepFree ":" (formatBits (S (Z.to_nat (Z.log2 (- n)))) (- n) "") = true).
    apply formatBits_sepFree; [lia | reflexivity].
  - apply formatBits_sepFree; [lia | reflexivity].
Qed.

(** The first separator of [p ++ sep ++ s] is the one written after [p]
    when [p] holds none. *)
Lemma cut_sepFree sep p s :
  sepFree sep p = true → cut sep (p +:+ String sep s) = Some (p, s).
Proof.
  induction p as [| c p IH]; simpl; intros Hp.
  - rewrite Ascii.eqb_refl. reflexivity.
  - apply andb_prop in Hp as [Hc Hp].
    destruct (Ascii.eqb c sep); [discriminate |]. rewrite IH by exact Hp.
    reflexivity.
Qed.

Lemma Atoi_formatInt n : is_int n → Atoi (formatInt n) = Some n.
Proof.
  intros [Hlo Hhi]. unfold formatInt. destruct (Z.ltb_spec n 0) as [Hneg | Hpos].
  - unfold Atoi. rewrite Ascii.eqb_refl. cbn [orb].
    destruct (formatBits_head (Z.to_nat (Z.log2 (- n))) (- n) EmptyString)
      as (d & rest & Hd & Hfmt); [lia |].
    fold (formatUint (- n)) in Hfmt.
    pose proof (parseDigits_formatUint (- n) ltac:(lia)) as Hparse.
    rewrite Hfmt in *. rewrite Hparse. rewrite Z.opp_involutive.
    destruct (Z.leb_spec MinInt n); [| lia].
    destruct (Z.leb_spec n MaxInt); [| lia]. reflexivity.
  - destruct (formatBits_head (Z.to_nat (Z.log2 n)) n EmptyString)
      as (d & rest & Hd & Hfmt); [lia |].
    fold (formatUint n) in Hfmt.
    pose proof (parseDigits_formatUint n Hpos) as Hparse.
    rewrite Hfmt in *. unfold Atoi.
    rewrite !digitChar_not_sign by auto. cbn [orb]. rewrite Hparse.
    destruct (Z.leb_spec MinInt n); [| lia].
    destruct (Z.leb_spec n MaxInt); [| lia]. reflexivity.
Qed.

End GoFacts.

(** ** The choice-selection token *)

(** C10: the callback data [sendTask] writes for a task and an option (the
    decimal text of the task identity, a colon, the option) is read back by
    the head of [handleCallbackQuery] (split at the first colon, [Atoi] on
    the prefix) as exactly that task identity and that whole option, also
    when the option itself holds colons. *)
Theorem callback_token_roundtrip (task : Task) (option : string) :
  Go.is_int (ID task) →
  parseCallback (callbackData task option) = Some (ID task, option).
Proof.
  intros Hint. unfold parseCallback, callbackData, Go.SplitN2.
  change (":" +:+ option) with (String ":"%char option).
  rewrite cut_sepFree by apply formatInt_sepFree.
  rewrite Atoi_formatInt by exact Hint. reflexivity.
Qed.

(** The round trip at task 12 and an option that itself holds a colon. *)
Lemma callback_token_roundtrip_witness :
  parseCallback (callbackData (mkTask 12 "" "b" ["a:b"; "b"]) "a:b") = Some (12, "a:b").
Proof.
  apply (callback_token_roundtrip (mkTask 12 "" "b" ["a:b"; "b"]) "a:b").
  unfold Go.is_int, Go.MinInt, Go.MaxInt. simpl. lia.
Defined.

(** ** Evaluation of a submitted answer *)

Lemma answerCorrect_iff task a : answerCorrect task a = true ↔ a = Answer task.
Proof. unfold answerCorrect. apply String.eqb_eq. Qed.

(** C5: a submitted answer counts as correct exactly when it is the task's
    answer, byte for byte: the result is a boolean (no partial credit), a
    different case or a leading blank makes it incorrect (["Int"] and
    [" int"] against ["int"]), and the feedback [handleCallbackQuery] sends
    for a well-formed selection of a catalog task is the "correct" text in
    that case and the "incorrect" text in every other. *)
Theorem answer_evaluation_strict :
  (∀ task a, answerCorrect task a = true ↔ a = Answer task) ∧
  (∀ id text options,
     answerCorrect (mkTask id text "int" options) "Int" = false ∧
     answerCorrect (mkTask id text "int" options) " int" = false ∧
     answerCorrect (mkTask id text "int" options) "int" = true) ∧
  (∀ (St Env : Type) getP saveP (deref : St → loc → gmap Z bool)
     (env : Env) st query taskID task a,
     parseCallback (Data query) = Some (taskID, a) →
     findTask taskID = Some task →
     ∃ before after st',
       handleCallbackQuery getP saveP deref env st query =
         (before ++ AnswerCallback (QueryID query)
                      (if decide (a = Answer task) then msgCorrect else msgIncorrect)
                 :: after, st')).
Proof.
  split; [exact answerCorrect_iff |]. split; [intros; repeat split |].
  intros St Env getP saveP deref env st query taskID task a Hparse Hfind.
  unfold parseCallback in Hparse. unfold handleCallbackQuery.
  destruct (Go.SplitN2 (Data query) ":") as [| p0 [| p1 [| ? ?]]]; try discriminate.
  destruct (Go.Atoi p0) as [n |]; [| discriminate].
  injection Hparse as -> ->. rewrite Hfind.
  destruct (answerCorrect task a) eqn:Hc.
  - apply answerCorrect_iff in Hc. rewrite decide_True by exact Hc.
    destruct (saveP env st (From query) (ID task) true) as [[e |] st1];
      destruct (getNextTask getP deref env st1 (From query)) as [[[next |] out] st3];
      eexists _, _, _; reflexivity.
  - rewrite decide_False.
    + exists [], [], st. reflexivity.
    + intros Heq. apply answerCorrect_iff in Heq. congruence.
Qed.

(** ** Selection of the next task *)

Lemma firstUnsolved_cons t rest progress :
  firstUnsolved (t :: rest) progress =
    if decide (solvedIn progress t) then firstUnsolved rest progress else Some t.
Proof.
  simpl. unfold mapIndex.
  destruct (decide (solvedIn progress t)) as [Hs | Hn]; unfold solvedIn in *.
  - rewrite Hs. reflexivity.
  - destruct (progress !! ID t) as [[|] |]; [contradiction | reflexivity ..].
Qed.

Lemma firstUnsolved_Some tasks progress t :
  firstUnsolved tasks progress = Some t ↔
  ∃ pre post, tasks = pre ++ t :: post ∧
              Forall (solvedIn progress) pre ∧ ¬ solvedIn progress t.
Proof.
  induction tasks as [| t0 rest IH].
  - simpl. split; [discriminate |].
    intros (pre & post & Heq & _). destruct pre; discriminate.
  - rewrite firstUnsolved_cons. destruct (decide (solvedIn progress t0)) as [Hs | Hn].
    + rewrite IH. split.
      * intros (pre & post & -> & Hpre & Ht).
        exists (t0 :: pre), post. auto.
      * intros (pre & post & Heq & Hpre & Ht).
        destruct pre as [| p pre]; simpl in Heq; injection Heq as <- ->.
        -- contradiction.
        -- exists pre, post. inversion Hpre; auto.
    + split.
      * intros [= <-]. exists [], rest. auto.
      * intros (pre & post & Heq & Hpre & Ht).
        destruct pre as [| p pre]; simpl in Heq; injection Heq as <- ->.
        -- reflexivity.
        -- inversion Hpre; contradiction.
Qed.

Lemma firstUnsolved_None tasks progress :
  firstUnsolved tasks progress = None ↔ Forall (solvedIn progress) tasks.
Proof.
  induction tasks as [| t0 rest IH]; [simpl; split; auto |].
  rewrite firstUnsolved_cons. destruct (decide (solvedIn progress t0)) as [Hs | Hn].
  - rewrite IH. split; [auto | inversion 1; auto].
  - split; [discriminate | inversion 1; contradiction].
Qed.

Lemma firstUnsolved_agree tasks progress progress' :
  (∀ t, t ∈ tasks → progress' !! ID t = progress !! ID t) →
  firstUnsolved tasks progress' = firstUnsolved tasks progress.
Proof.
  induction tasks as [| t0 rest IH]; intros Hagree; [reflexivity |].
  simpl. unfold mapIndex. rewrite (Hagree t0) by left.
  rewrite IH; [reflexivity |]. intros t Ht. apply Hagree. right. exact Ht.
Qed.

(** C3: over any snapshot, the selection loop returns the first task, in
    the order of the list, that the snapshot does not record as solved
    (absent, or present with [false]); it returns none exactly when every
    task of the list is solved; entries of the snapshot under identities
    that are not in the list change nothing; and [getNextTask] is this loop
    over the catalog [getTasks] and the snapshot [getUserProgress] returns. *)
Theorem getNextTask_first_unsolved :
  (∀ tasks snapshot t,
     firstUnsolved tasks snapshot = Some t ↔
     ∃ pre post, tasks = pre ++ t :: post ∧
                 Forall (λ t', snapshot !! ID t' = Some true) pre ∧
                 (snapshot !! ID t = None ∨ snapshot !! ID t = Some false)) ∧
  (∀ tasks snapshot,
     firstUnsolved tasks snapshot = None ↔
     Forall (λ t', snapshot !! ID t' = Some true) tasks) ∧
  (∀ tasks snapshot snapshot',
     (∀ t, t ∈ tasks → snapshot' !! ID t = snapshot !! ID t) →
     firstUnsolved tasks snapshot' = firstUnsolved tasks snapshot) ∧
  (∀ (St Env : Type) getP (deref : St → loc → gmap Z bool) (env : Env) st userID r st',
     getP env st userID = (Ok r, st') →
     getNextTask getP deref env st userID =
       (firstUnsolved getTasks (deref st' r), [], st')).
Proof.
  repeat split.
  - intros H. apply firstUnsolved_Some in H as (pre & post & Heq & Hpre & Ht).
    exists pre, post. repeat split; [exact Heq | exact Hpre |].
    unfold solvedIn in Ht. destruct (snapshot !! ID t) as [[|] |]; auto.
    contradiction.
  - intros (pre & post & Heq & Hpre & Ht). apply firstUnsolved_Some.
    exists pre, post. repeat split; [exact Heq | exact Hpre |].
    unfold solvedIn. destruct Ht as [-> | ->]; discriminate.
  - apply firstUnsolved_None.
  - apply firstUnsolved_None.
  - apply firstUnsolved_agree.
  - intros St Env getP deref env st userID r st' Hget.
    unfold getNextTask. rewrite Hget. reflexivity.
Qed.

(** ** The progress report *)

Lemma countSolved_spec progress : countSolved progress = Z.of_nat (solvedCount progress).
Proof.
  unfold countSolved, solvedCount.
  apply (map_fold_weak_ind
           (λ r (m : gmap Z bool),
              r = Z.of_nat (size (filter (λ kv : Z * bool, kv.2 = true) m)))).
  - rewrite map_filter_empty, map_size_empty. reflexivity.
  - intros i x m r Hi ->. destruct x.
    + rewrite map_filter_insert_True by reflexivity.
      rewrite map_size_insert_None; [lia |].
      apply map_lookup_filter_None. left. exact Hi.
    + rewrite map_filter_insert_not'; [reflexivity | simpl; discriminate |].
      intros y Hy. congruence.
Qed.

Lemma checkBelow_iter check bound :
  let st := N.iter bound (λ '(k, ok), (k + 1, ok && check k)) (0, true) in
  st.1 = Z.of_N bound ∧ (st.2 = true → ∀ k, 0 ≤ k < Z.of_N bound → check k = true).
Proof.
  induction bound as [| bound IH] using N.peano_ind; simpl.
  - split; [reflexivity | intros _ k Hk; lia].
  - rewrite N.iter_succ.
    destruct (N.iter bound _ _) as [j ok]. simpl in IH. destruct IH as [-> IH].
    simpl. split; [lia |]. intros Hok k Hk.
    apply andb_prop in Hok as [Hok Hj].
    destruct (Z.eq_dec k (Z.of_N bound)) as [-> | Hne]; [exact Hj |].
    apply IH; [exact Hok | lia].
Qed.

Lemma checkBelow_spec check bound :
  checkBelow check bound = true → ∀ k, 0 ≤ k < Z.of_N bound → check k = true.
Proof. intros H. apply (checkBelow_iter check bound). exact H. Qed.

(** The binary64 computation of [showProgress] agrees with the exact
    fraction for every count below [2^16], each one evaluated. *)
Lemma percentExact_below : ∀ k, 0 ≤ k < 2 ^ 16 → percentExact k = true.
Proof.
  apply (checkBelow_spec percentExact (2 ^ 16)%N).
  vm_cast_no_check (eq_refl true).
Qed.

Lemma percentExact_text solved :
  percentExact solved = true →
  Go.formatF1 (percent solved (Z.of_nat (length getTasks))) =
    Go.decimal1 (solved * 100) (Z.of_nat (length getTasks)).
Proof.
  unfold percentExact, Go.formatF1, Go.decimal1.
  destruct (Prim2SF (percent solved (Z.of_nat (length getTasks))))
    as [[|] | | | [|] m e]; try discriminate;
    intros Heq; apply Z.eqb_eq in Heq; rewrite Heq; reflexivity.
Qed.

(** The shifts of [roundTenths] compute the rounded quotient by [2^(-e)]. *)
Lemma roundTenths_exact m e :
  Go.roundTenths m e =
    if 0 <=? e then Z.pos m * 10 * 2 ^ e
    else Go.roundHalfEven (Z.pos m * 10) (2 ^ (- e)).
Proof.
  unfold Go.roundTenths, Go.roundHalfEven. destruct (Z.leb_spec 0 e) as [Hpos | Hneg].
  - apply Z.shiftl_mul_pow2. exact Hpos.
  - rewrite Z.shiftr_div_pow2, Z.land_ones, Z.shiftl_1_l by lia.
    assert (Hd : 2 ^ (- e) = 2 * 2 ^ (- e - 1)).
    { rewrite <- Z.pow_succ_r by lia. f_equal. lia. }
    set (half := 2 ^ (- e - 1)) in *. rewrite Hd.
    set (q := Z.div (Z.pos m * 10) (2 * half)).
    set (r := Z.modulo (Z.pos m * 10) (2 * half)).
    destruct (Z.ltb_spec r half), (Z.ltb_spec (2 * r) (2 * half)); try lia.
    destruct (Z.ltb_spec half r), (Z.ltb_spec (2 * half) (2 * r));
      try lia; reflexivity.
Qed.

(** C9: for a snapshot with fewer than [2^16] solved entries, the progress
    command counts the entries that are [true], reports that count over the
    number of catalog tasks, and a percentage that is the exact fraction
    [solved * 100 / total] with one digit after the point (the binary64
    computation of the source, evaluated for every such count); with one
    task of five solved the text holds [1/5] and [20.0%]. *)
Theorem showProgress_report (progress : gmap Z bool) :
  Z.of_nat (solvedCount progress) < 2 ^ 16 →
  let solved := Z.of_nat (solvedCount progress) in
  let total := Z.of_nat (length getTasks) in
  countSolved progress = solved ∧
  total = 5 ∧
  progressText progress =
    "Ваш прогресс: 📊" +:+ Go.newline +:+ Go.newline +:+
    "Решено задач: " +:+ Go.formatInt solved +:+ "/" +:+ Go.formatInt total +:+
    Go.newline +:+ "Прогресс: " +:+ Go.decimal1 (solved * 100) total +:+ "%" ∧
  (solvedCount progress = 1%nat →
   progressText progress =
     "Ваш прогресс: 📊" +:+ Go.newline +:+ Go.newline +:+
     "Решено задач: 1/5" +:+ Go.newline +:+ "Прогресс: 20.0%") ∧
  (∀ (St Env : Type) getP (deref : St → loc → gmap Z bool) (env : Env) st chatID r st',
     getP env st chatID = (Ok r, st') → deref st' r = progress →
     showProgress getP deref env st chatID =
       ([SendMessage chatID (progressText progress)], st')).
Proof.
  intros Hbound solved total.
  split; [apply countSolved_spec |]. split; [reflexivity |]. split; [| split].
  - unfold progressText. rewrite countSolved_spec.
    rewrite (percentExact_text (Z.of_nat (solvedCount progress))); [reflexivity |].
    apply percentExact_below. lia.
  - intros Hone. unfold progressText. rewrite countSolved_spec, Hone.
    vm_compute. reflexivity.
  - intros St Env getP deref env st chatID r st' Hget Hsnap.
    unfold showProgress. rewrite Hget, Hsnap. reflexivity.
Qed.

(** The report for a snapshot holding task 1 as solved and nothing else. *)
Lemma showProgress_report_witness :
  progressText {[1 := true]} =
    "Ваш прогресс: 📊" +:+ Go.newline +:+ Go.newline +:+
    "Решено задач: 1/5" +:+ Go.newline +:+ "Прогресс: 20.0%".
Proof.
  destruct (showProgress_report {[1 := true]}) as (_ & _ & _ & Hone & _).
  - vm_compute. reflexivity.
  - apply Hone. vm_compute. reflexivity.
Defined.

(** ** What the handlers do to the coordinator's state

    Every handler reaches the state through [getUserProgress] and through
    [saveUserProgress] with [solved = true] only, so a property of the
    state that both keep is kept by every update. *)

Section HandlerFacts.

Context {St Env : Type}.
Variable getP : Env → St → Z → result loc * St.
Variable saveP : Env → St → Z → Z → bool → option error * St.
Variable deref : St → loc → gmap Z bool.
Variable P : St → Prop.
Hypothesis get_keeps : ∀ env st userID, P st → P (getP env st userID).2.
Hypothesis save_keeps : ∀ env st userID taskID, P st → P (saveP env st userID taskID true).2.

Lemma getNextTask_keeps env st userID :
  P st → P (getNextTask getP deref env st userID).2.
Proof.
  intros HP. unfold getNextTask.
  pose proof (get_keeps env st userID HP) as Hget.
  destruct (getP env st userID) as [[r | e] st']; exact Hget.
Qed.

Lemma handleTaskCommand_keeps env st chatID :
  P st → P (handleTaskCommand getP deref env st chatID).2.
Proof.
  intros HP. unfold handleTaskCommand.
  pose proof (getNextTask_keeps env st chatID HP) as Hnext.
  destruct (getNextTask getP deref env st chatID) as [[[task |] out] st']; exact Hnext.
Qed.

Lemma showProgress_keeps env st chatID :
  P st → P (showProgress getP deref env st chatID).2.
Proof.
  intros HP. unfold showProgress.
  pose proof (get_keeps env st chatID HP) as Hget.
  destruct (getP env st chatID) as [[r | e] st']; exact Hget.
Qed.

Lemma handleCommand_keeps env st chatID command :
  P st → P (handleCommand getP deref env st chatID command).2.
Proof.
  intros HP. unfold handleCommand.
  destruct (String.eqb command "start"); [exact HP |].
  destruct (String.eqb command "task"); [apply handleTaskCommand_keeps; exact HP |].
  destruct (String.eqb command "progress"); [apply showProgress_keeps; exact HP |].
  exact HP.
Qed.

Lemma handleCallbackQuery_keeps env st query :
  P st → P (handleCallbackQuery getP saveP deref env st query).2.
Proof.
  intros HP. unfold handleCallbackQuery.
  destruct (Go.SplitN2 (Data query) ":") as [| p0 [| p1 [| ? ?]]]; try exact HP.
  destruct (Go.Atoi p0) as [taskID |]; [| exact HP].
  destruct (findTask taskID) as [task |]; [| exact HP].
  destruct (answerCorrect task p1); [| exact HP].
  pose proof (save_keeps env st (From query) (ID task) HP) as Hsave.
  destruct (saveP env st (From query) (ID task) true) as [[e |] st1];
    simpl in Hsave;
    pose proof (getNextTask_keeps env st1 (From query) Hsave) as Hnext;
    destruct (getNextTask getP deref env st1 (From query)) as [[[next |] out] st3];
    exact Hnext.
Qed.

Lemma handleUpdate_keeps env st update :
  P st → P (handleUpdate getP saveP deref env st update).2.
Proof.
  intros HP. destruct update as [query | chatID command |]; simpl.
  - apply handleCallbackQuery_keeps; exact HP.
  - apply handleCommand_keeps; exact HP.
  - exact HP.
Qed.

Lemma processUpdates_keeps updates : ∀ st,
  P st → P (processUpdates getP saveP deref updates st).2.
Proof.
  induction updates as [| [env update] rest IH]; intros st HP; simpl; [exact HP |].
  pose proof (handleUpdate_keeps env st update HP) as Hstep.
  destruct (handleUpdate getP saveP deref env st update) as [out st'].
  specialize (IH st' Hstep).
  destruct (processUpdates getP saveP deref rest st') as [outs st'']. exact IH.
Qed.

End HandlerFacts.

(** The same for a property that only the updates handled under a
    well-behaved environment keep. *)

Section HandlerFactsWhen.

Context {St Env : Type}.
Variable getP : Env → St → Z → result loc * St.
Variable saveP : Env → St → Z → Z → bool → option error * St.
Variable deref : St → loc → gmap Z bool.
Variable good : Env → Prop.
Variable P : St → Prop.
Hypothesis get_keeps : ∀ env st userID, good env → P st → P (getP env st userID).2.
Hypothesis save_keeps :
  ∀ env st userID taskID, good env → P st → P (saveP env st userID taskID true).2.

Lemma handleUpdate_keeps_when env st update :
  good env → P st → P (handleUpdate getP saveP deref env st update).2.
Proof.
  intros Hgood HP.
  change (P (handleUpdate (λ _, getP env) (λ _, saveP env) deref env st update).2).
  apply handleUpdate_keeps; [| | exact HP].
  - intros _ st' u HP'. apply get_keeps; assumption.
  - intros _ st' u t HP'. apply save_keeps; assumption.
Qed.

Lemma processUpdates_keeps_when updates : ∀ st,
  Forall (λ eu : Env * Update, good eu.1) updates →
  P st → P (processUpdates getP saveP deref updates st).2.
Proof.
  induction updates as [| [env update] rest IH]; intros st Hall HP; simpl; [exact HP |].
  apply Forall_cons in Hall as [Hgood Hrest]. simpl in Hgood.
  pose proof (handleUpdate_keeps_when env st update Hgood HP) as Hstep.
  destruct (handleUpdate getP saveP deref env st update) as [out st'].
  specialize (IH st' Hrest Hstep).
  destruct (processUpdates getP saveP deref rest st') as [outs st'']. exact IH.
Qed.

End HandlerFactsWhen.

(** ** The coordinator over the table *)

Section ReconciledFacts.
Import Reconciled.

Lemma scanRows_None rows : ∀ acc,
  NoDup rows.*1 → scanRows rows None acc = Ok (list_to_map rows ∪ acc).
Proof.
  induction rows as [| [k v] rest IH]; intros acc Hnd; simpl.
  - rewrite (left_id_L ∅ (∪)). reflexivity.
  - simpl in Hnd. apply NoDup_cons in Hnd as [Hk Hnd].
    rewrite IH by exact Hnd. f_equal.
    rewrite <- insert_union_l. symmetry. apply insert_union_r.
    apply not_elem_of_list_to_map_1. exact Hk.
Qed.

(** With no scan failure the loop rebuilds the user's rows. *)
Lemma scanRows_all (m : gmap Z bool) : scanRows (map_to_list m) None ∅ = Ok m.
Proof.
  rewrite scanRows_None by apply NoDup_fst_map_to_list.
  rewrite list_to_map_to_list, (right_id_L ∅ (∪)). reflexivity.
Qed.

Lemma scanRows_cases rows : ∀ scanFails acc,
  scanRows rows scanFails acc = Err ErrScan ∨
  scanRows rows scanFails acc = scanRows rows None acc.
Proof.
  induction rows as [| [k v] rest IH]; intros scanFails acc; simpl; [by right |].
  destruct scanFails as [[| n] |]; simpl; [by left | apply IH | by right].
Qed.

Lemma rec_get_hit env st userID r :
  progressCache st !! userID = Some r →
  getUserProgress env st userID = (Ok r, st).
Proof. intros Hhit. unfold getUserProgress. rewrite Hhit. reflexivity. Qed.

(** A cut iteration leaves the loop with the rows it was given, and no
    error. *)
Lemma scanRows_delivered (seen : list Z) (m : gmap Z bool) :
  scanRows (filter (λ row : Z * bool, row.1 ∈ seen) (map_to_list m)) None ∅ =
    Ok (filter (λ row : Z * bool, row.1 ∈ seen) m).
Proof.
  rewrite scanRows_None.
  - rewrite (right_id_L ∅ (∪)), <- map_filter_alt. reflexivity.
  - apply (sublist_NoDup _ (map_to_list m).*1); [apply NoDup_fst_map_to_list |].
    apply fmap_sublist, sublist_filter.
Qed.

Lemma deliveredMap_complete env (rows : gmap Z bool) :
  complete env → deliveredMap (onQuery env) rows = rows.
Proof. unfold complete. destruct (onQuery env); [reflexivity .. | contradiction]. Qed.

Lemma deliveredMap_lookup answer (rows : gmap Z bool) k v :
  deliveredMap answer rows !! k = Some v → rows !! k = Some v.
Proof.
  destruct answer as [| scanFails | seen]; simpl; try (intros H; exact H).
  intros H. apply map_lookup_filter_Some in H as [H _]. exact H.
Qed.

Lemma rec_get_miss_any env st userID :
  progressCache st !! userID = None →
  (∃ e, getUserProgress env st userID = (Err e, st) ∧ onQuery env ≠ QueryReturns None) ∨
  getUserProgress env st userID =
    (Ok (length (heap st)),
     cached st userID (deliveredMap (onQuery env) (default ∅ (db st !! userID)))).
Proof.
  intros Hmiss. unfold getUserProgress. rewrite Hmiss.
  destruct (onQuery env) as [| scanFails | seen] eqn:Hq.
  - left. exists ErrQuery. split; [reflexivity | discriminate].
  - unfold selectProgress. cbn [rowsDelivered scanFailure deliveredMap].
    destruct (scanRows_cases (map_to_list (default ∅ (db st !! userID))) scanFails ∅)
      as [Herr | Hall].
    + left. exists ErrScan. rewrite Herr. split; [reflexivity |].
      intros [= ->]. rewrite scanRows_all in Herr. discriminate.
    + right. rewrite Hall, scanRows_all. reflexivity.
  - right. unfold selectProgress. cbn [rowsDelivered scanFailure deliveredMap].
    rewrite scanRows_delivered. reflexivity.
Qed.

Lemma rec_get_miss env st userID :
  complete env → progressCache st !! userID = None →
  (∃ e, getUserProgress env st userID = (Err e, st) ∧ onQuery env ≠ QueryReturns None) ∨
  getUserProgress env st userID = (Ok (length (heap st)), loaded st userID).
Proof.
  intros Hfull Hmiss. destruct (rec_get_miss_any env st userID Hmiss) as [Herr | Hok].
  - left. exact Herr.
  - right. rewrite Hok, (deliveredMap_complete env _ Hfull). reflexivity.
Qed.

Lemma complete_returns env : onQuery env = QueryReturns None → complete env.
Proof. unfold complete. intros ->. exact I. Qed.

Lemma rec_get_miss_healthy env st userID :
  progressCache st !! userID = None → onQuery env = QueryReturns None →
  getUserProgress env st userID = (Ok (length (heap st)), loaded st userID).
Proof.
  intros Hmiss Hq.
  destruct (rec_get_miss env st userID (complete_returns env Hq) Hmiss)
    as [(e & _ & Hne) | H].
  - contradiction.
  - exact H.
Qed.

Lemma deref_cached st userID progress :
  deref (cached st userID progress) (length (heap st)) = progress.
Proof.
  unfold deref, cached. simpl.
  rewrite lookup_app_r by lia. rewrite Nat.sub_diag. reflexivity.
Qed.

Lemma deref_loaded st userID :
  deref (loaded st userID) (length (heap st)) = default ∅ (db st !! userID).
Proof.
  unfold deref, loaded. simpl.
  rewrite lookup_app_r by lia. rewrite Nat.sub_diag. reflexivity.
Qed.

Lemma rec_save_state env st userID taskID solved :
  saveUserProgress env st userID taskID solved =
    match onExec env with
    | ExecOk =>
        (None, mkState (upsertProgress (db st) userID taskID solved) (heap st)
                       (delete userID (progressCache st)))
    | ExecFails =>
        (Some ErrExec, mkState (db st) (heap st) (delete userID (progressCache st)))
    end.
Proof. unfold saveUserProgress. destruct (onExec env); reflexivity. Qed.

Lemma stored_upsert table userID taskID solved u t :
  stored (upsertProgress table userID taskID solved) u t =
    if decide (u = userID ∧ t = taskID) then Some solved else stored table u t.
Proof.
  unfold stored, upsertProgress.
  destruct (decide (u = userID)) as [-> | Hu].
  - rewrite lookup_insert_eq. simpl.
    destruct (decide (t = taskID)) as [-> | Ht].
    + rewrite lookup_insert_eq, decide_True by done. reflexivity.
    + rewrite lookup_insert_ne, decide_False by (try intros [? ?]; congruence).
      reflexivity.
  - rewrite lookup_insert_ne, decide_False by (try intros [? ?]; congruence).
    reflexivity.
Qed.

Lemma rec_deref_valid st r k v :
  deref st r !! k = Some v → (r < length (heap st))%nat.
Proof.
  unfold deref. intros H. apply lookup_lt_is_Some.
  destruct (heap st !! r) as [m |]; [exists m; reflexivity |].
  simpl in H. rewrite lookup_empty in H. discriminate.
Qed.

Lemma rec_deref_loaded_old st userID r :
  (r < length (heap st))%nat → deref (loaded st userID) r = deref st r.
Proof. intros Hr. unfold deref, loaded. simpl. rewrite lookup_app_l by exact Hr. reflexivity. Qed.

Lemma rec_get_keeps userID taskID env st u :
  complete env →
  durablySolved userID taskID st →
  durablySolved userID taskID (getUserProgress env st u).2.
Proof.
  intros Hfull [Hdb Hcache]. destruct (progressCache st !! u) as [r |] eqn:Hu.
  - rewrite (rec_get_hit env st u r Hu). split; assumption.
  - destruct (rec_get_miss env st u Hfull Hu) as [(e & -> & _) | ->];
      [split; assumption |].
    split; [exact Hdb |]. simpl. intros r Hr.
    destruct (decide (u = userID)) as [-> | Hne].
    + rewrite lookup_insert_eq in Hr. injection Hr as <-.
      rewrite deref_loaded. exact Hdb.
    + rewrite lookup_insert_ne in Hr by exact Hne.
      specialize (Hcache r Hr).
      rewrite rec_deref_loaded_old by (eapply rec_deref_valid; exact Hcache).
      exact Hcache.
Qed.

Lemma rec_save_keeps userID taskID env st u t :
  durablySolved userID taskID st →
  durablySolved userID taskID (saveUserProgress env st u t true).2.
Proof.
  intros [Hdb Hcache]. rewrite rec_save_state.
  destruct (onExec env); simpl; (split; [| intros r Hr; simpl in Hr;
    apply lookup_delete_Some in Hr as [_ Hr]; apply (Hcache r Hr)]).
  - simpl. rewrite stored_upsert. case_decide; [reflexivity | exact Hdb].
  - exact Hdb.
Qed.

Lemma rec_save_establishes env st userID taskID :
  onExec env = ExecOk →
  durablySolved userID taskID (saveUserProgress env st userID taskID true).2.
Proof.
  intros Hok. rewrite rec_save_state, Hok. split; simpl.
  - rewrite stored_upsert, decide_True by done. reflexivity.
  - intros r Hr. rewrite lookup_delete_eq in Hr. discriminate.
Qed.

Lemma rec_run_keeps userID taskID updates st :
  Forall (λ eu : StoreEnv * Update, complete eu.1) updates →
  durablySolved userID taskID st → durablySolved userID taskID (run updates st).
Proof.
  apply (processUpdates_keeps_when getUserProgress saveUserProgress deref complete).
  - intros env st' u. apply rec_get_keeps.
  - intros env st' u t _. apply rec_save_keeps.
Qed.

Lemma rec_get_reports userID taskID env st r st' :
  complete env →
  durablySolved userID taskID st →
  getUserProgress env st userID = (Ok r, st') →
  deref st' r !! taskID = Some true.
Proof.
  intros Hfull [Hdb Hcache] Hget.
  destruct (progressCache st !! userID) as [r0 |] eqn:Hu.
  - rewrite (rec_get_hit env st userID r0 Hu) in Hget. injection Hget as <- <-.
    apply Hcache. reflexivity.
  - destruct (rec_get_miss env st userID Hfull Hu) as [(e & He & _) | Hok].
    + rewrite He in Hget. discriminate.
    + rewrite Hok in Hget. injection Hget as <- <-. rewrite deref_loaded. exact Hdb.
Qed.

(** A read returns a snapshot unless it has to go to the table and the
    store fails. *)
Lemma rec_get_returns env st userID :
  onQuery env = QueryReturns None →
  ∃ r st', getUserProgress env st userID = (Ok r, st').
Proof.
  intros Hq. destruct (progressCache st !! userID) as [r0 |] eqn:Hu.
  - exists r0, st. apply rec_get_hit. exact Hu.
  - eexists _, _. apply rec_get_miss_healthy; assumption.
Qed.

End ReconciledFacts.

(** ** The coordinator over the cache alone *)

Section CacheOnlyFacts.
Import CacheOnly.

Lemma co_get_hit env st userID r :
  progressCache st !! userID = Some r →
  getUserProgress env st userID = (Ok r, st).
Proof. intros Hhit. unfold getUserProgress. rewrite Hhit. reflexivity. Qed.

Lemma co_get_miss env st userID :
  progressCache st !! userID = None →
  getUserProgress env st userID =
    (Ok (length (heap st)),
     mkState (heap st ++ [∅]) (<[userID := length (heap st)]> (progressCache st))).
Proof. intros Hmiss. unfold getUserProgress. rewrite Hmiss. reflexivity. Qed.

(** This build's read always returns a map, which the cache then holds. *)
Lemma co_get_ok env st userID :
  ∃ r st', getUserProgress env st userID = (Ok r, st') ∧
           progressCache st' !! userID = Some r.
Proof.
  destruct (progressCache st !! userID) as [r |] eqn:Hu.
  - exists r, st. split; [apply co_get_hit; exact Hu | exact Hu].
  - eexists _, _. split; [apply co_get_miss; exact Hu |].
    simpl. apply lookup_insert_eq.
Qed.

Lemma co_save_state env st userID taskID solved r st1 :
  getUserProgress env st userID = (Ok r, st1) →
  saveUserProgress env st userID taskID solved =
    (None, mkState (alter (<[taskID := solved]>) r (heap st1))
                   (<[userID := r]> (progressCache st1))).
Proof. intros Hget. unfold saveUserProgress. rewrite Hget. reflexivity. Qed.

Lemma co_deref_valid st r k v :
  deref st r !! k = Some v → (r < length (heap st))%nat.
Proof.
  unfold deref. intros H. apply lookup_lt_is_Some.
  destruct (heap st !! r) as [m |]; [exists m; reflexivity |].
  simpl in H. rewrite lookup_empty in H. discriminate.
Qed.

(** What a map reads after [progress[taskID] = solved] through [r]. *)
Lemma co_deref_alter h c r taskID solved r' :
  deref (mkState (alter (<[taskID := solved]>) r h) c) r' =
    if decide (r = r' ∧ (r < length h)%nat)
    then <[taskID := solved]> (default ∅ (h !! r'))
    else default ∅ (h !! r').
Proof.
  unfold deref. cbn [heap]. destruct (decide (r = r')) as [<- | Hne].
  - rewrite list_lookup_alter_eq. destruct (h !! r) as [m |] eqn:Hm; simpl.
    + rewrite decide_True; [reflexivity |].
      split; [reflexivity | eapply lookup_lt_Some; exact Hm].
    + rewrite decide_False; [reflexivity |].
      intros [_ Hlt]. apply lookup_ge_None in Hm. lia.
  - rewrite list_lookup_alter_ne by exact Hne.
    rewrite decide_False by (intros [? _]; contradiction). reflexivity.
Qed.

Lemma co_get_keeps userID taskID env st u :
  solvedInCache userID taskID st →
  solvedInCache userID taskID (getUserProgress env st u).2.
Proof.
  intros (r & Hr & Hsolved). destruct (progressCache st !! u) as [r0 |] eqn:Hu.
  - rewrite (co_get_hit env st u r0 Hu). exists r. split; assumption.
  - rewrite (co_get_miss env st u Hu). exists r. simpl. split.
    + rewrite lookup_insert_ne by congruence. exact Hr.
    + unfold deref in *. simpl.
      rewrite lookup_app_l; [exact Hsolved |].
      eapply (co_deref_valid st). exact Hsolved.
Qed.

Lemma co_save_keeps userID taskID env st u t :
  solvedInCache userID taskID st →
  solvedInCache userID taskID (saveUserProgress env st u t true).2.
Proof.
  intros Hinv. destruct (co_get_ok env st u) as (r' & st1 & Hget & Hcached).
  pose proof (co_get_keeps userID taskID env st u Hinv) as Hinv1.
  rewrite Hget in Hinv1. simpl in Hinv1. destruct Hinv1 as (r & Hr & Hsolved).
  rewrite (co_save_state env st u t true r' st1 Hget). simpl.
  exists r. simpl. split.
  - destruct (decide (u = userID)) as [-> | Hne].
    + rewrite lookup_insert_eq. congruence.
    + rewrite lookup_insert_ne by exact Hne. exact Hr.
  - rewrite co_deref_alter. unfold deref in Hsolved. case_decide; [| exact Hsolved].
    destruct (decide (t = taskID)) as [-> | Hne].
    + apply lookup_insert_eq.
    + rewrite lookup_insert_ne by exact Hne. exact Hsolved.
Qed.

Lemma co_run_keeps userID taskID updates st :
  solvedInCache userID taskID st → solvedInCache userID taskID (run updates st).
Proof.
  apply processUpdates_keeps.
  - intros env st' u. apply co_get_keeps.
  - intros env st' u t. apply co_save_keeps.
Qed.

Lemma co_get_wf env st userID : wf st → wf (getUserProgress env st userID).2.
Proof.
  intros Hwf. destruct (progressCache st !! userID) as [r0 |] eqn:Hu.
  - rewrite (co_get_hit env st userID r0 Hu). exact Hwf.
  - rewrite (co_get_miss env st userID Hu). intros u r. simpl.
    rewrite length_app. simpl. intros Hr.
    apply lookup_insert_Some in Hr as [[_ <-] | [_ Hr]]; [lia |].
    specialize (Hwf u r Hr). lia.
Qed.

Lemma co_get_valid env st userID r st' :
  wf st → getUserProgress env st userID = (Ok r, st') → (r < length (heap st'))%nat.
Proof.
  intros Hwf Hget. pose proof (co_get_wf env st userID Hwf) as Hwf'.
  destruct (co_get_ok env st userID) as (r' & st1 & Hget' & Hcached).
  rewrite Hget' in Hget, Hwf'. injection Hget as <- <-.
  apply (Hwf' userID). exact Hcached.
Qed.

Lemma co_save_wf env st userID taskID solved :
  wf st → wf (saveUserProgress env st userID taskID solved).2.
Proof.
  intros Hwf. destruct (co_get_ok env st userID) as (r' & st1 & Hget & Hcached).
  pose proof (co_get_wf env st userID Hwf) as Hwf1.
  rewrite Hget in Hwf1. simpl in Hwf1.
  rewrite (co_save_state env st userID taskID solved r' st1 Hget).
  intros u r. simpl. rewrite length_alter. intros Hr.
  apply lookup_insert_Some in Hr as [[_ <-] | [_ Hr]].
  - apply (Hwf1 userID). exact Hcached.
  - apply (Hwf1 u). exact Hr.
Qed.

Lemma co_init_wf : wf init.
Proof. intros u r Hr. simpl in Hr. rewrite lookup_empty in Hr. discriminate. Qed.

(** Every state the process reaches is well formed. *)
Lemma co_run_wf updates st : wf st → wf (run updates st).
Proof.
  apply processUpdates_keeps.
  - intros env st' u. apply co_get_wf.
  - intros env st' u t. apply co_save_wf.
Qed.

Lemma co_save_establishes env st userID taskID :
  wf st → solvedInCache userID taskID (saveUserProgress env st userID taskID true).2.
Proof.
  intros Hwf. destruct (co_get_ok env st userID) as (r & st1 & Hget & Hcached).
  pose proof (co_get_valid env st userID r st1 Hwf Hget) as Hvalid.
  rewrite (co_save_state env st userID taskID true r st1 Hget). simpl.
  exists r. simpl. split; [apply lookup_insert_eq |].
  rewrite co_deref_alter, decide_True by done. apply lookup_insert_eq.
Qed.


End CacheOnlyFacts.

(** ** A write the store refuses *)

(** C1, as stated, fails: a refused write of a task that the table already
    holds as solved is followed by a read that reports the task as solved.
    User 42 has task 1 stored as solved; the write of task 1 is refused; the
    next read returns a snapshot that holds task 1 as solved. *)
Lemma refused_write_of_stored_task_reported :
  (Reconciled.saveUserProgress Reconciled.writeFails Reconciled.sample 42 1 true).1
    = Some ErrExec ∧
  ∃ r st2,
    Reconciled.getUserProgress Reconciled.healthy
      (Reconciled.saveUserProgress Reconciled.writeFails Reconciled.sample 42 1 true).2 42
      = (Ok r, st2) ∧
    Reconciled.deref st2 r !! 1 = Some true.
Proof.
  split; [reflexivity |]. eexists _, _. split; [reflexivity |].
  vm_compute. reflexivity.
Qed.

(** C1, amended: in the build over the table, when the store refuses the
    write of [saveUserProgress] for a user and a task, the call returns the
    error, the table is as before and the user's cache entry is gone.  The
    next [getUserProgress] of that user therefore goes to the table, and
    whatever the store answers, every entry of a snapshot it returns is a
    row the table held before the refused call: the task is reported as
    solved only if the table already held it as solved.  When the read is
    not cut short the snapshot is the user's rows as they were before the
    call, and the read returns a snapshot whenever the store answers it in
    full. *)
Theorem failed_write_not_reflected env env' st userID taskID :
  Reconciled.onExec env = Reconciled.ExecFails →
  let st1 := (Reconciled.saveUserProgress env st userID taskID true).2 in
  (Reconciled.saveUserProgress env st userID taskID true).1 = Some ErrExec ∧
  Reconciled.db st1 = Reconciled.db st ∧
  Reconciled.progressCache st1 !! userID = None ∧
  (∀ r st2,
     Reconciled.getUserProgress env' st1 userID = (Ok r, st2) →
     (∀ t v, Reconciled.deref st2 r !! t = Some v →
             Reconciled.stored (Reconciled.db st) userID t = Some v) ∧
     (Reconciled.deref st2 r !! taskID = Some true →
      Reconciled.stored (Reconciled.db st) userID taskID = Some true) ∧
     (Reconciled.complete env' →
      Reconciled.deref st2 r = default ∅ (Reconciled.db st !! userID))) ∧
  (Reconciled.onQuery env' = Reconciled.QueryReturns None →
   ∃ r st2, Reconciled.getUserProgress env' st1 userID = (Ok r, st2)).
Proof.
  intros Hfail st1. subst st1. rewrite rec_save_state, Hfail. simpl.
  split; [reflexivity |]. split; [reflexivity |].
  split; [apply lookup_delete_eq |]. split.
  - intros r st2 Hget.
    assert (Hsub : ∀ t v, Reconciled.deref st2 r !! t = Some v →
                          Reconciled.stored (Reconciled.db st) userID t = Some v).
    { match type of Hget with
      | Reconciled.getUserProgress _ ?s _ = _ =>
          destruct (rec_get_miss_any env' s userID) as [(e & He & _) | Hok];
            [simpl; apply lookup_delete_eq | rewrite He in Hget; discriminate |]
      end.
      rewrite Hok in Hget. injection Hget as <- <-.
      match goal with
      | |- context [Reconciled.cached ?s _ ?m] =>
          pose proof (deref_cached s userID m) as Hd
      end.
      cbn [Reconciled.heap Reconciled.db] in Hd. rewrite Hd.
      intros t v Hv. apply deliveredMap_lookup in Hv. exact Hv. }
    split; [exact Hsub |]. split; [apply Hsub |].
    intros Hfull.
    match type of Hget with
    | Reconciled.getUserProgress _ ?s _ = _ =>
        destruct (rec_get_miss env' s userID Hfull) as [(e & He & _) | Hok];
          [simpl; apply lookup_delete_eq | rewrite He in Hget; discriminate |]
    end.
    rewrite Hok in Hget. injection Hget as <- <-.
    match goal with
    | |- context [Reconciled.loaded ?s _] =>
        pose proof (deref_loaded s userID) as Hd
    end.
    cbn [Reconciled.heap Reconciled.db] in Hd. rewrite Hd. reflexivity.
  - intros Hq. apply rec_get_returns. exact Hq.
Qed.

(** User 42 has solved task 1; the write of task 2 is refused; the next read
    returns a snapshot that does not hold task 2 as solved. *)
Lemma failed_write_not_reflected_witness :
  (Reconciled.saveUserProgress Reconciled.writeFails Reconciled.sample 42 2 true).1
    = Some ErrExec ∧
  ∃ r st2,
    Reconciled.getUserProgress Reconciled.writeFails
      (Reconciled.saveUserProgress Reconciled.writeFails Reconciled.sample 42 2 true).2 42
      = (Ok r, st2) ∧
    Reconciled.deref st2 r !! 2 ≠ Some true.
Proof.
  destruct (failed_write_not_reflected Reconciled.writeFails Reconciled.writeFails
              Reconciled.sample 42 2 eq_refl) as (Herr & _ & _ & Hsnap & Hret).
  split; [exact Herr |].
  destruct (Hret eq_refl) as (r & st2 & Hget). exists r, st2.
  split; [exact Hget |]. intros Hsolved.
  apply (Hsnap r st2 Hget) in Hsolved. vm_compute in Hsolved. discriminate.
Defined.

(** C7, as stated, fails: the failing call deletes the user's cache entry.
    User 42 has a cached map before the refused write and none after. *)
Lemma failed_write_deletes_cache_entry :
  Reconciled.onExec Reconciled.writeFails = Reconciled.ExecFails ∧
  Reconciled.progressCache Reconciled.sample !! 42 = Some 0%nat ∧
  Reconciled.progressCache
    (Reconciled.saveUserProgress Reconciled.writeFails Reconciled.sample 42 2 true).2
    !! 42 = None ∧
  Reconciled.progressCache
    (Reconciled.saveUserProgress Reconciled.writeFails Reconciled.sample 42 2 true).2
    ≠ Reconciled.progressCache Reconciled.sample.
Proof.
  split; [reflexivity |]. split; [reflexivity |]. split; [reflexivity |].
  intros Heq. apply (f_equal (λ c : gmap Z nat, c !! 42)) in Heq.
  vm_compute in Heq. discriminate.
Qed.

(** C7, amended: in the build over the table, when the store refuses the
    write, [saveUserProgress] returns the error and leaves the table and
    every map object as they were; its one change to the cache is the
    removal of the entry of the user it was called for: no entry is stored
    or updated, and the entries of other users stay. *)
Theorem failed_write_only_invalidates env st userID taskID solved :
  Reconciled.onExec env = Reconciled.ExecFails →
  let st1 := (Reconciled.saveUserProgress env st userID taskID solved).2 in
  (Reconciled.saveUserProgress env st userID taskID solved).1 = Some ErrExec ∧
  Reconciled.db st1 = Reconciled.db st ∧
  Reconciled.heap st1 = Reconciled.heap st ∧
  Reconciled.progressCache st1 = delete userID (Reconciled.progressCache st) ∧
  (∀ u r, Reconciled.progressCache st1 !! u = Some r →
          Reconciled.progressCache st !! u = Some r) ∧
  (∀ u, u ≠ userID →
        Reconciled.progressCache st1 !! u = Reconciled.progressCache st !! u) ∧
  (∀ r, Reconciled.deref st1 r = Reconciled.deref st r).
Proof.
  intros Hfail st1. subst st1. rewrite rec_save_state, Hfail. simpl.
  repeat split.
  - intros u r Hr. apply lookup_delete_Some in Hr as [_ Hr]. exact Hr.
  - intros u Hne. apply lookup_delete_ne. congruence.
Qed.

(** The refused write at the example state leaves the cache without the
    entry of user 42 and otherwise as it was. *)
Lemma failed_write_only_invalidates_witness :
  Reconciled.progressCache
    (Reconciled.saveUserProgress Reconciled.outage Reconciled.sample 42 2 true).2
    = delete 42 (Reconciled.progressCache Reconciled.sample).
Proof.
  destruct (failed_write_only_invalidates Reconciled.outage Reconciled.sample 42 2 true
              eq_refl) as (_ & _ & _ & Hcache & _).
  exact Hcache.
Defined.

(** ** Recording a solved task *)








(** C2 fails in the build over the table.  The loop of [getUserProgress]
    ends when [rows.Next] returns false, also on a driver or deadline
    error, and [rows.Err] is never read: the rows delivered so far are
    cached and returned with a nil error.  The table holds task 1 for user
    42.  The user's write of task 2 is accepted and the next read reports
    task 2 as solved.  The write of task 3 is accepted too and drops the
    cache entry; the read after it is cut after the row of task 1.  That
    read returns a snapshot without task 2, and so does every read after
    it, served from the cache, although the table holds task 2 as solved:
    the handlers present task 2 again. *)
Theorem solved_regresses_after_cut_read :
  ∃ st1 r1 st2 st3 r2 st4 task,
    Reconciled.saveUserProgress Reconciled.healthy
      (Reconciled.init {[42 := {[1 := true]}]}) 42 2 true = (None, st1) ∧
    Reconciled.getUserProgress Reconciled.healthy st1 42 = (Ok r1, st2) ∧
    Reconciled.deref st2 r1 !! 2 = Some true ∧
    Reconciled.saveUserProgress Reconciled.healthy st2 42 3 true = (None, st3) ∧
    Reconciled.getUserProgress (Reconciled.cutAfter [1]) st3 42 = (Ok r2, st4) ∧
    Reconciled.deref st4 r2 !! 2 = None ∧
    Reconciled.stored (Reconciled.db st4) 42 2 = Some true ∧
    Reconciled.getUserProgress Reconciled.healthy st4 42 = (Ok r2, st4) ∧
    findTask 2 = Some task ∧
    (handleTaskCommand Reconciled.getUserProgress Reconciled.deref
       Reconciled.healthy st4 42).1 = [sendTask 42 task].
Proof.
  eexists _, _, _, _, _, _, _.
  split; [reflexivity |]. split; [reflexivity |]. split; [vm_compute; reflexivity |].
  split; [reflexivity |]. split; [vm_compute; reflexivity |].
  split; [vm_compute; reflexivity |]. split; [vm_compute; reflexivity |].
  split; [vm_compute; reflexivity |]. split; [reflexivity |].
  vm_compute. reflexivity.
Qed.

(** X24: what holds of "solved stays solved".  After [saveUserProgress] has
    recorded a task as solved for a user, whatever updates the process
    handles afterwards, a [getUserProgress] of that user that returns a
    snapshot reports the task as solved: in the build over the cache alone
    always, and the read always returns a snapshot; in the build over the
    table when the store accepted the write and no read since, nor this
    one, had its row iteration cut short, and the read then returns an
    error only when the cache holds no entry and the store fails it. *)
Theorem solved_stays_reported :
  (∀ env st userID taskID updates env',
     Reconciled.onExec env = Reconciled.ExecOk →
     Forall (λ eu : Reconciled.StoreEnv * Update, Reconciled.complete eu.1) updates →
     Reconciled.complete env' →
     let st2 := Reconciled.run updates
                  (Reconciled.saveUserProgress env st userID taskID true).2 in
     (Reconciled.saveUserProgress env st userID taskID true).1 = None ∧
     (∀ r st3, Reconciled.getUserProgress env' st2 userID = (Ok r, st3) →
               Reconciled.deref st3 r !! taskID = Some true) ∧
     (∀ e st3, Reconciled.getUserProgress env' st2 userID = (Err e, st3) →
               Reconciled.progressCache st2 !! userID = None ∧
               Reconciled.onQuery env' ≠ Reconciled.QueryReturns None)) ∧
  (∀ st userID taskID updates,
     CacheOnly.wf st →
     let st2 := CacheOnly.run updates
                  (CacheOnly.saveUserProgress tt st userID taskID true).2 in
     (CacheOnly.saveUserProgress tt st userID taskID true).1 = None ∧
     ∃ r st3, CacheOnly.getUserProgress tt st2 userID = (Ok r, st3) ∧
              CacheOnly.deref st3 r !! taskID = Some true).
Proof.
  split.
  - intros env st userID taskID updates env' Hok Hall Hfull st2.
    assert (Hinv : Reconciled.durablySolved userID taskID st2).
    { apply rec_run_keeps; [exact Hall |]. apply rec_save_establishes. exact Hok. }
    split; [rewrite rec_save_state, Hok; reflexivity |]. split.
    + intros r st3 Hget. eapply rec_get_reports; [exact Hfull | exact Hinv | exact Hget].
    + intros e st3 Hget.
      destruct (Reconciled.progressCache st2 !! userID) as [r0 |] eqn:Hu.
      * rewrite (rec_get_hit env' st2 userID r0 Hu) in Hget. discriminate.
      * split; [reflexivity |]. intros Hq.
        rewrite (rec_get_miss_healthy env' st2 userID Hu Hq) in Hget. discriminate.
  - intros st userID taskID updates Hwf st2.
    destruct (co_get_ok tt st userID) as (r0 & st0 & Hget0 & _).
    split; [rewrite (co_save_state tt st userID taskID true r0 st0 Hget0); reflexivity |].
    assert (Hinv : CacheOnly.solvedInCache userID taskID st2).
    { apply co_run_keeps, co_save_establishes. exact Hwf. }
    destruct Hinv as (r & Hr & Hsolved).
    exists r, st2. split; [apply co_get_hit; exact Hr | exact Hsolved].
Qed.

(** User 42 solves task 1, asks for a task and solves task 2: task 1 is
    still reported as solved, in each build. *)
Lemma solved_stays_reported_witness :
  (∃ r st3,
     CacheOnly.getUserProgress tt
       (CacheOnly.run [(tt, UpdCommand 42 "task"); (tt, UpdCallback (mkQuery "q" 42 "2:int"))]
          (CacheOnly.saveUserProgress tt CacheOnly.init 42 1 true).2) 42 = (Ok r, st3) ∧
     CacheOnly.deref st3 r !! 1 = Some true) ∧
  (∀ r st3,
     Reconciled.getUserProgress Reconciled.healthy
       (Reconciled.run
          [(Reconciled.healthy, UpdCommand 42 "task");
           (Reconciled.healthy, UpdCallback (mkQuery "q" 42 "2:int"))]
          (Reconciled.saveUserProgress Reconciled.healthy (Reconciled.init ∅) 42 1 true).2)
       42 = (Ok r, st3) →
     Reconciled.deref st3 r !! 1 = Some true).
Proof.
  destruct solved_stays_reported as [Hrec Hco]. split.
  - destruct (Hco CacheOnly.init 42 1
                [(tt, UpdCommand 42 "task"); (tt, UpdCallback (mkQuery "q" 42 "2:int"))]
                co_init_wf) as [_ Hget].
    exact Hget.
  - destruct (Hrec Reconciled.healthy (Reconciled.init ∅) 42 1
                [(Reconciled.healthy, UpdCommand 42 "task");
                 (Reconciled.healthy, UpdCallback (mkQuery "q" 42 "2:int"))]
                Reconciled.healthy eq_refl) as (_ & Hget & _).
    + repeat constructor.
    + exact I.
    + exact Hget.
Defined.

(** ** A snapshot and later writes *)

(** C8, as stated, fails in the build over the cache alone: the map
    [getUserProgress] returned for user 42 is empty when it is returned and
    holds task 1 after a later [saveUserProgress] of that user. *)
Lemma snapshot_is_live_view :
  ∃ r st1,
    CacheOnly.getUserProgress tt CacheOnly.init 42 = (Ok r, st1) ∧
    CacheOnly.deref st1 r !! 1 = None ∧
    CacheOnly.deref (CacheOnly.saveUserProgress tt st1 42 1 true).2 r !! 1 = Some true ∧
    CacheOnly.deref (CacheOnly.saveUserProgress tt st1 42 1 true).2 r
      ≠ CacheOnly.deref st1 r.
Proof.
  eexists _, _. split; [reflexivity |]. split; [reflexivity |].
  split; [reflexivity |]. intros Heq.
  apply (f_equal (λ m : gmap Z bool, m !! 1)) in Heq. vm_compute in Heq. discriminate.
Qed.

(** C8, amended: in the build over the table, the map behind a reference
    that [getUserProgress] returned reads the same after any later
    [saveUserProgress], which writes to no map object.  In the build over
    the cache alone the reference returned for a user is the one the cache
    holds, and a later [saveUserProgress] of that user writes its flag into
    that very map: afterwards the map reads as before except at the task
    written. *)
Theorem snapshot_after_later_write :
  (∀ env st userID r st1,
     Reconciled.getUserProgress env st userID = (Ok r, st1) →
     ∀ env' u t solved,
       Reconciled.heap (Reconciled.saveUserProgress env' st1 u t solved).2
         = Reconciled.heap st1 ∧
       Reconciled.deref (Reconciled.saveUserProgress env' st1 u t solved).2 r
         = Reconciled.deref st1 r) ∧
  (∀ st userID r st1,
     CacheOnly.wf st →
     CacheOnly.getUserProgress tt st userID = (Ok r, st1) →
     CacheOnly.progressCache st1 !! userID = Some r ∧
     ∀ taskID solved,
       CacheOnly.deref (CacheOnly.saveUserProgress tt st1 userID taskID solved).2 r
         = <[taskID := solved]> (CacheOnly.deref st1 r)).
Proof.
  split.
  - intros env st userID r st1 _ env' u t solved.
    rewrite rec_save_state. destruct (Reconciled.onExec env'); split; reflexivity.
  - intros st userID r st1 Hwf Hget.
    pose proof (co_get_valid tt st userID r st1 Hwf Hget) as Hvalid.
    destruct (co_get_ok tt st userID) as (r' & st' & Hget' & Hcached).
    rewrite Hget' in Hget. injection Hget as -> ->.
    split; [exact Hcached |]. intros taskID solved.
    rewrite (co_save_state tt st1 userID taskID solved r st1)
      by (apply co_get_hit; exact Hcached).
    simpl. rewrite co_deref_alter, decide_True by done. reflexivity.
Qed.

(** The map handed to user 42 at start-up, read again after task 1 was
    recorded. *)
Lemma snapshot_after_later_write_witness :
  CacheOnly.deref
    (CacheOnly.saveUserProgress tt (CacheOnly.getUserProgress tt CacheOnly.init 42).2
       42 1 true).2 0%nat
  = <[1 := true]> (CacheOnly.deref (CacheOnly.getUserProgress tt CacheOnly.init 42).2 0%nat).
Proof.
  destruct snapshot_after_later_write as [_ Hco].
  destruct (Hco CacheOnly.init 42 0%nat (CacheOnly.getUserProgress tt CacheOnly.init 42).2
              co_init_wf eq_refl) as [_ Hwrite].
  apply Hwrite.
Defined.

(** ** The task command when the store cannot be read *)

(** In the build over the table, a task command whose read of the table
    fails ends with the completion message. *)
Lemma handleTaskCommand_read_failure env st chatID :
  Reconciled.progressCache st !! chatID = None →
  Reconciled.onQuery env = Reconciled.QueryFails →
  handleTaskCommand Reconciled.getUserProgress Reconciled.deref env st chatID =
    ([Log logProgressError; SendMessage chatID msgAllSolved], st).
Proof.
  intros Hmiss Hq. unfold handleTaskCommand, getNextTask, Reconciled.getUserProgress.
  rewrite Hmiss, Hq. reflexivity.
Qed.

(** C6 (the code departs from it): user 42 has solved task 1 only, the
    cache is empty and the store is down.  [getUserProgress] returns the
    error and the progress command answers with the failure message, but
    [getNextTask] turns the error into "no task" and the task command
    answers that every task is solved. *)
Theorem task_command_on_store_outage :
  let st := Reconciled.init {[42 := {[1 := true]}]} in
  Reconciled.getUserProgress Reconciled.outage st 42 = (Err ErrQuery, st) ∧
  showProgress Reconciled.getUserProgress Reconciled.deref Reconciled.outage st 42 =
    ([Log logProgressError; SendMessage 42 msgProgressError], st) ∧
  handleTaskCommand Reconciled.getUserProgress Reconciled.deref Reconciled.outage st 42 =
    ([Log logProgressError; SendMessage 42 msgAllSolved], st) ∧
  (handleTaskCommand Reconciled.getUserProgress Reconciled.deref Reconciled.healthy st 42).1 =
    [sendTask 42 (mkTask 2 "Какой тип данных используется для целых чисел в Go?"
                    "int" ["integer"; "float"; "int"; "number"])].
Proof.
  intros st. split; [reflexivity |]. split; [reflexivity |].
  split; [apply handleTaskCommand_read_failure; reflexivity |].
  vm_compute. reflexivity.
Qed.

(** * Further properties of the handlers and the coordinators *)

(** ** The catalog lookup *)

Lemma findTaskIn_Some tasks taskID t :
  findTaskIn tasks taskID = Some t → t ∈ tasks ∧ ID t = taskID.
Proof.
  induction tasks as [| t0 rest IH]; simpl; [discriminate |].
  destruct (Z.eqb_spec (ID t0) taskID) as [Heq | Hne].
  - intros [= <-]. split; [left | exact Heq].
  - intros H. destruct (IH H) as [Hin Hid]. split; [right; exact Hin | exact Hid].
Qed.

Lemma findTaskIn_None tasks taskID :
  findTaskIn tasks taskID = None ↔ ∀ t, t ∈ tasks → ID t ≠ taskID.
Proof.
  induction tasks as [| t0 rest IH]; simpl.
  - split; [intros _ t Ht; inversion Ht | reflexivity].
  - destruct (Z.eqb_spec (ID t0) taskID) as [Heq | Hne].
    + split; [discriminate |]. intros H. exfalso. apply (H t0); [left | exact Heq].
    + rewrite IH. split.
      * intros H t Ht. apply elem_of_cons in Ht as [-> | Ht]; [exact Hne | apply H, Ht].
      * intros H t Ht. apply H. right. exact Ht.
Qed.

Lemma findTaskIn_first tasks taskID t :
  findTaskIn tasks taskID = Some t →
  ∃ pre post, tasks = pre ++ t :: post ∧ Forall (λ t', ID t' ≠ taskID) pre.
Proof.
  induction tasks as [| t0 rest IH]; simpl; [discriminate |].
  destruct (Z.eqb_spec (ID t0) taskID) as [Heq | Hne].
  - intros [= <-]. exists [], rest. split; [reflexivity | constructor].
  - intros H. destruct (IH H) as (pre & post & -> & Hpre).
    exists (t0 :: pre), post. split; [reflexivity | constructor; assumption].
Qed.

Lemma findTaskIn_NoDup tasks t :
  NoDup (ID <$> tasks) → t ∈ tasks → findTaskIn tasks (ID t) = Some t.
Proof.
  induction tasks as [| t0 rest IH]; intros Hnd Hin; [inversion Hin |].
  simpl in Hnd. apply NoDup_cons in Hnd as [Hfresh Hnd]. simpl.
  apply elem_of_cons in Hin as [-> | Hin].
  - rewrite Z.eqb_refl. reflexivity.
  - destruct (Z.eqb_spec (ID t0) (ID t)) as [Heq | Hne]; [| apply IH; assumption].
    exfalso. apply Hfresh. rewrite Heq. apply list_elem_of_fmap. exists t. auto.
Qed.

Lemma getTasks_ids_NoDup : NoDup (ID <$> getTasks).
Proof. apply (bool_decide_unpack _). vm_compute. exact I. Qed.

Lemma getTasks_ids_int t : t ∈ getTasks → Go.is_int (ID t).
Proof.
  intros Hin. assert (Hall : Forall (λ t', Go.is_int (ID t')) getTasks).
  { unfold getTasks, Go.is_int, Go.MinInt, Go.MaxInt.
    repeat (constructor; [simpl; lia |]). constructor. }
  rewrite Forall_forall in Hall. apply Hall. exact Hin.
Qed.

Lemma findTask_catalog t : t ∈ getTasks → findTask (ID t) = Some t.
Proof. apply findTaskIn_NoDup, getTasks_ids_NoDup. Qed.

(** X1: [findTask] returns a task exactly when the catalog holds a task
    with that identity, and then that very task (identities are unique in
    the catalog); it returns nil exactly when no catalog task has the
    identity.  Over any task list the loop returns the first match. *)
Theorem findTask_spec :
  (∀ taskID t, findTask taskID = Some t ↔ t ∈ getTasks ∧ ID t = taskID) ∧
  (∀ taskID, findTask taskID = None ↔ ∀ t, t ∈ getTasks → ID t ≠ taskID) ∧
  (∀ tasks taskID t,
     findTaskIn tasks taskID = Some t →
     ID t = taskID ∧
     ∃ pre post, tasks = pre ++ t :: post ∧ Forall (λ t', ID t' ≠ taskID) pre).
Proof.
  split; [| split].
  - intros taskID t. split; [apply findTaskIn_Some |].
    intros [Hin <-]. apply findTask_catalog. exact Hin.
  - intros taskID. apply findTaskIn_None.
  - intros tasks taskID t H. split; [apply (findTaskIn_Some tasks taskID t H) |].
    apply findTaskIn_first. exact H.
Qed.

(** ** Tokens the handler acts on *)

Lemma parseCallback_encode task option :
  Go.is_int (ID task) →
  parseCallback (callbackData task option) = Some (ID task, option).
Proof.
  intros Hint. unfold parseCallback, callbackData, Go.SplitN2.
  change (":" +:+ option) with (String ":"%char option).
  rewrite cut_sepFree by apply formatInt_sepFree.
  rewrite Atoi_formatInt by exact Hint. reflexivity.
Qed.

Lemma cut_Some sep s before after :
  Go.cut sep s = Some (before, after) →
  s = before +:+ String sep after ∧ Go.sepFree sep before = true.
Proof.
  revert before. induction s as [| c s IH]; simpl; intros before; [discriminate |].
  destruct (Ascii.eqb_spec c sep) as [-> | Hne].
  - intros [= <- <-]. split; reflexivity.
  - destruct (Go.cut sep s) as [[b a] |]; [| discriminate].
    intros [= <- <-]. destruct (IH b eq_refl) as [-> Hfree].
    split; [reflexivity |]. simpl.
    destruct (Ascii.eqb_spec c sep); [contradiction | exact Hfree].
Qed.

Lemma cut_None sep s : Go.cut sep s = None ↔ Go.sepFree sep s = true.
Proof.
  induction s as [| c s IH]; simpl; [split; reflexivity |].
  destruct (Ascii.eqb_spec c sep) as [-> | Hne]; simpl.
  - split; discriminate.
  - rewrite <- IH. destruct (Go.cut sep s) as [[b a] |]; split; auto; discriminate.
Qed.

Lemma Atoi_range s n : Go.Atoi s = Some n → Go.is_int n.
Proof.
  unfold Go.Atoi. destruct s as [| c rest]; [discriminate |].
  destruct (if Ascii.eqb c "-" || Ascii.eqb c "+" then rest else String c rest);
    [discriminate |].
  destruct (Go.parseDigits _ 0) as [un |]; [| discriminate].
  destruct (Z.leb_spec Go.MinInt (if Ascii.eqb c "-" then - un else un)); [| discriminate].
  destruct (Z.leb_spec (if Ascii.eqb c "-" then - un else un) Go.MaxInt); [| discriminate].
  intros [= <-]. split; assumption.
Qed.

(** X2: the head of [handleCallbackQuery] accepts a token only when it
    holds a colon and the text before the first colon is a decimal integer
    in the range of [int]; the answer it then compares is everything after
    that first colon.  A token with no colon is refused. *)
Theorem parseCallback_sound :
  (∀ data taskID a,
     parseCallback data = Some (taskID, a) →
     ∃ prefix, data = prefix +:+ ":" +:+ a ∧
               Go.sepFree ":" prefix = true ∧
               Go.Atoi prefix = Some taskID ∧
               Go.is_int taskID) ∧
  (∀ data, Go.sepFree ":" data = true → parseCallback data = None).
Proof.
  split.
  - intros data taskID a. unfold parseCallback, Go.SplitN2.
    destruct (Go.cut ":" data) as [[before after] |] eqn:Hcut; [| discriminate].
    destruct (Go.Atoi before) as [n |] eqn:Hatoi; [| discriminate].
    intros [= <- <-]. apply cut_Some in Hcut as [-> Hfree].
    exists before. split; [reflexivity |]. split; [exact Hfree |].
    split; [exact Hatoi | eapply Atoi_range; exact Hatoi].
  - intros data Hfree. unfold parseCallback, Go.SplitN2.
    apply cut_None in Hfree. rewrite Hfree. reflexivity.
Qed.

(** X3: each button [sendTask] puts under a task carries one option of the
    task, in the order of the task's options, and its callback data is read
    back by the head of [handleCallbackQuery] as the task's identity and
    that option; for a catalog task [findTask] then finds the task itself. *)
Theorem sendTask_buttons_resolve chatID task text buttons :
  Go.is_int (ID task) →
  sendTask chatID task = SendTask chatID text buttons →
  buttons.*1 = Options task ∧
  (∀ label data, (label, data) ∈ buttons →
     label ∈ Options task ∧ parseCallback data = Some (ID task, label)) ∧
  (task ∈ getTasks → findTask (ID task) = Some task).
Proof.
  intros Hint Hsend. unfold sendTask in Hsend. injection Hsend as _ <-.
  split; [| split].
  - rewrite <- list_fmap_compose. apply list_fmap_id.
  - intros label data Hin. apply list_elem_of_fmap in Hin as (option & [= -> ->] & Hopt).
    split; [exact Hopt | apply parseCallback_encode; exact Hint].
  - apply findTask_catalog.
Qed.

(** The third button of the first catalog task. *)
Lemma sendTask_buttons_resolve_witness : parseCallback "1:var" = Some (1, "var").
Proof.
  destruct (sendTask_buttons_resolve 42
              (mkTask 1 "Какой оператор используется для объявления переменной в Go?"
                 "var" ["let"; "const"; "var"; "define"])
              _ _ ltac:(unfold Go.is_int, Go.MinInt, Go.MaxInt; simpl; lia) eq_refl)
    as (_ & Hparse & _).
  apply (Hparse "var" "1:var").
  simpl. do 2 apply list_elem_of_further. apply list_elem_of_here.
Defined.

(** ** Selections and commands that change nothing *)

Section HandlerEdgeFacts.

Context {St Env : Type}.
Variable getP : Env → St → Z → result loc * St.
Variable saveP : Env → St → Z → Z → bool → option error * St.
Variable deref : St → loc → gmap Z bool.

Lemma parseCallback_parts data taskID a :
  parseCallback data = Some (taskID, a) →
  ∃ p0, Go.SplitN2 data ":" = [p0; a] ∧ Go.Atoi p0 = Some taskID.
Proof.
  unfold parseCallback.
  destruct (Go.SplitN2 data ":") as [| p0 [| p1 [| ? ?]]]; try discriminate.
  destruct (Go.Atoi p0) as [n |] eqn:Hatoi; [| discriminate].
  intros [= <- <-]. exists p0. split; [reflexivity | exact Hatoi].
Qed.

(** X4: a selection whose token does not parse, or names a task that is
    not in the catalog, is dropped: the handler writes one log line, sends
    nothing to the user, answers no callback and leaves the state as it
    was. *)
Theorem callback_malformed_dropped env st query :
  parseCallback (Data query) = None ∨
  (∃ taskID a, parseCallback (Data query) = Some (taskID, a) ∧ findTask taskID = None) →
  ∃ line, line ∈ [logBadCallback; logBadTaskID; logNoTask] ∧
          handleCallbackQuery getP saveP deref env st query = ([Log line], st).
Proof.
  intros [Hnone | (taskID & a & Hparse & Hfind)].
  - unfold parseCallback in Hnone. unfold handleCallbackQuery.
    destruct (Go.SplitN2 (Data query) ":") as [| p0 [| p1 [| ? ?]]];
      try (exists logBadCallback; split; [set_solver | reflexivity]).
    destruct (Go.Atoi p0); [discriminate |].
    exists logBadTaskID. split; [set_solver | reflexivity].
  - apply parseCallback_parts in Hparse as (p0 & Hsplit & Hatoi).
    unfold handleCallbackQuery. rewrite Hsplit, Hatoi, Hfind.
    exists logNoTask. split; [set_solver | reflexivity].
Qed.

(** X5: a well-formed selection of a catalog task with any answer but the
    task's own gets the "incorrect" feedback and nothing else: no progress
    is written, no task is sent, the state is as it was, so the same task
    is the next one again. *)
Theorem incorrect_answer_no_effect env st query taskID task a :
  parseCallback (Data query) = Some (taskID, a) →
  findTask taskID = Some task →
  a ≠ Answer task →
  handleCallbackQuery getP saveP deref env st query =
    ([AnswerCallback (QueryID query) msgIncorrect], st).
Proof.
  intros Hparse Hfind Hne.
  apply parseCallback_parts in Hparse as (p0 & Hsplit & Hatoi).
  unfold handleCallbackQuery. rewrite Hsplit, Hatoi, Hfind.
  destruct (answerCorrect task a) eqn:Hc; [| reflexivity].
  apply answerCorrect_iff in Hc. contradiction.
Qed.

(** What the handler does with the task's own answer: write, feedback,
    then the next task or the closing message. *)
Lemma handleCallbackQuery_correct env st query taskID task :
  parseCallback (Data query) = Some (taskID, Answer task) →
  findTask taskID = Some task →
  ∀ err st1 next out st3,
    saveP env st (From query) (ID task) true = (err, st1) →
    getNextTask getP deref env st1 (From query) = (next, out, st3) →
    handleCallbackQuery getP saveP deref env st query =
      (match err with Some _ => [Log logSaveError] | None => [] end ++
       [AnswerCallback (QueryID query) msgCorrect] ++
       out ++
       [match next with
        | Some t => sendTask (From query) t
        | None => SendMessage (From query) msgNoMoreTasks
        end], st3).
Proof.
  intros Hparse Hfind err st1 next out st3 Hsave Hnext.
  apply parseCallback_parts in Hparse as (p0 & Hsplit & Hatoi).
  unfold handleCallbackQuery. rewrite Hsplit, Hatoi, Hfind.
  unfold answerCorrect. rewrite String.eqb_refl, Hsave.
  destruct err; cbv beta iota zeta; rewrite Hnext; destruct next; reflexivity.
Qed.

(** X6: the command [start] sends the welcome text and any command other
    than [start], [task] and [progress] sends the "unknown command" text;
    neither reads nor writes progress.  Command names are compared as
    written: [Start] is unknown. *)
Theorem handleCommand_without_progress env st chatID :
  handleCommand getP deref env st chatID "start" = ([SendMessage chatID msgWelcome], st) ∧
  handleCommand getP deref env st chatID "Start" =
    ([SendMessage chatID msgUnknownCommand], st) ∧
  (∀ command,
     command ≠ "start" → command ≠ "task" → command ≠ "progress" →
     handleCommand getP deref env st chatID command =
       ([SendMessage chatID msgUnknownCommand], st)) ∧
  handleCommand getP deref env st chatID "task" = handleTaskCommand getP deref env st chatID ∧
  handleCommand getP deref env st chatID "progress" = showProgress getP deref env st chatID.
Proof.
  split; [reflexivity |]. split; [reflexivity |]. split; [| split; reflexivity].
  intros command H1 H2 H3. unfold handleCommand.
  destruct (String.eqb_spec command "start"); [contradiction |].
  destruct (String.eqb_spec command "task"); [contradiction |].
  destruct (String.eqb_spec command "progress"); [contradiction |].
  reflexivity.
Qed.

End HandlerEdgeFacts.

(** A token with no colon, in the build over the cache alone. *)
Lemma callback_malformed_dropped_witness :
  ∃ line,
    line ∈ [logBadCallback; logBadTaskID; logNoTask] ∧
    handleCallbackQuery CacheOnly.getUserProgress CacheOnly.saveUserProgress
      CacheOnly.deref tt CacheOnly.init (mkQuery "q" 42 "var") =
      ([Log line], CacheOnly.init).
Proof.
  apply (callback_malformed_dropped CacheOnly.getUserProgress CacheOnly.saveUserProgress
           CacheOnly.deref tt CacheOnly.init (mkQuery "q" 42 "var")).
  left. reflexivity.
Defined.

(** The answer [let] to the first catalog task. *)
Lemma incorrect_answer_no_effect_witness :
  handleCallbackQuery CacheOnly.getUserProgress CacheOnly.saveUserProgress
    CacheOnly.deref tt CacheOnly.init (mkQuery "q" 42 "1:let") =
    ([AnswerCallback "q" msgIncorrect], CacheOnly.init).
Proof.
  apply (incorrect_answer_no_effect CacheOnly.getUserProgress CacheOnly.saveUserProgress
           CacheOnly.deref tt CacheOnly.init (mkQuery "q" 42 "1:let") 1
           (mkTask 1 "Какой оператор используется для объявления переменной в Go?"
              "var" ["let"; "const"; "var"; "define"]) "let").
  - reflexivity.
  - reflexivity.
  - discriminate.
Defined.

(** ** Reads and writes over the table *)

Section ReconciledMore.
Import Reconciled.

Lemma scanRows_Some rows : ∀ k acc,
  scanRows rows (Some k) acc =
    if (k <? length rows)%nat then Err ErrScan else scanRows rows None acc.
Proof.
  induction rows as [| [taskID solved] rest IH]; intros k acc; [reflexivity |].
  destruct k as [| k]; [reflexivity |]. simpl. rewrite IH. reflexivity.
Qed.

(** X7: a read that misses the cache returns the query's error when the
    query fails and the scan's error when [rows.Scan] fails at a row the
    user has, and then stores nothing: the state is as before and no map
    is cached.  A scan failure placed beyond the user's last row never
    happens, and the read then succeeds like a healthy one: it allocates a
    map holding exactly the user's rows and caches it.  When the row
    iteration is cut short the read returns no error either: it allocates
    a map holding the rows delivered before the cut, and only those, and
    caches this partial map under the user. *)
Theorem read_miss_outcomes env st userID :
  progressCache st !! userID = None →
  let rows := default ∅ (db st !! userID) in
  (onQuery env = QueryFails →
   getUserProgress env st userID = (Err ErrQuery, st)) ∧
  (∀ k, onQuery env = QueryReturns (Some k) → (k < size rows)%nat →
        getUserProgress env st userID = (Err ErrScan, st)) ∧
  (∀ scanFails, onQuery env = QueryReturns scanFails →
     (∀ k, scanFails = Some k → (size rows ≤ k)%nat) →
     getUserProgress env st userID = (Ok (length (heap st)), loaded st userID) ∧
     deref (loaded st userID) (length (heap st)) = rows ∧
     progressCache (loaded st userID) !! userID = Some (length (heap st))) ∧
  (∀ seen, onQuery env = QueryCut seen →
     ∃ part : gmap Z bool,
       getUserProgress env st userID = (Ok (length (heap st)), cached st userID part) ∧
       deref (cached st userID part) (length (heap st)) = part ∧
       progressCache (cached st userID part) !! userID = Some (length (heap st)) ∧
       ∀ t v, part !! t = Some v ↔ rows !! t = Some v ∧ t ∈ seen).
Proof.
  intros Hmiss rows. unfold getUserProgress. rewrite Hmiss.
  split; [| split; [| split]].
  - intros ->. reflexivity.
  - intros k -> Hk. unfold selectProgress. cbn [rowsDelivered scanFailure].
    rewrite scanRows_Some.
    rewrite length_map_to_list. fold rows.
    destruct (Nat.ltb_spec k (size rows)); [reflexivity | lia].
  - intros scanFails Hq Hbeyond. rewrite Hq. unfold selectProgress.
    cbn [rowsDelivered scanFailure].
    split; [| split; [apply deref_loaded | simpl; apply lookup_insert_eq]].
    destruct scanFails as [k |].
    + rewrite scanRows_Some, length_map_to_list. fold rows.
      specialize (Hbeyond k eq_refl).
      destruct (Nat.ltb_spec k (size rows)); [lia |]. rewrite scanRows_all. reflexivity.
    + rewrite scanRows_all. reflexivity.
  - intros seen ->. unfold selectProgress. cbn [rowsDelivered scanFailure].
    exists (filter (λ row : Z * bool, row.1 ∈ seen) rows).
    split; [rewrite scanRows_delivered; reflexivity |].
    split; [apply deref_cached |].
    split; [simpl; apply lookup_insert_eq |].
    intros t v. rewrite map_lookup_filter_Some. reflexivity.
Qed.

(** X8: once a read has returned a map for a user, the next read of that
    user returns the same reference and changes nothing, whatever the store
    would answer: it is served from the cache and does not reach the
    table.  No read ever changes the table. *)
Theorem read_served_from_cache env env' st userID r st' :
  getUserProgress env st userID = (Ok r, st') →
  getUserProgress env' st' userID = (Ok r, st') ∧
  db st' = db st ∧
  ∀ env0 st0 u, db (getUserProgress env0 st0 u).2 = db st0.
Proof.
  intros Hget. split; [| split].
  - destruct (progressCache st !! userID) as [r0 |] eqn:Hu.
    + rewrite (rec_get_hit env st userID r0 Hu) in Hget. injection Hget as <- <-.
      apply rec_get_hit. exact Hu.
    + destruct (rec_get_miss_any env st userID Hu) as [(e & He & _) | Hok];
        rewrite ?He, ?Hok in Hget; [discriminate |].
      injection Hget as <- <-. apply rec_get_hit. simpl. apply lookup_insert_eq.
  - destruct (progressCache st !! userID) as [r0 |] eqn:Hu.
    + rewrite (rec_get_hit env st userID r0 Hu) in Hget. injection Hget as <- <-.
      reflexivity.
    + destruct (rec_get_miss_any env st userID Hu) as [(e & He & _) | Hok];
        rewrite ?He, ?Hok in Hget; [discriminate |].
      injection Hget as <- <-. reflexivity.
  - intros env0 st0 u. destruct (progressCache st0 !! u) as [r0 |] eqn:Hu.
    + rewrite (rec_get_hit env0 st0 u r0 Hu). reflexivity.
    + destruct (rec_get_miss_any env0 st0 u Hu) as [(e & -> & _) | ->]; reflexivity.
Qed.

(** X9: after a write the store accepted, the next read of that user that
    the store answers returns the user's earlier rows with the written
    flag put at the written task: the write is visible at once, and every
    other task of the user reads as the table held it. *)
Theorem write_then_read env env' st userID taskID solved :
  onExec env = ExecOk →
  onQuery env' = QueryReturns None →
  ∃ r st2,
    getUserProgress env' (saveUserProgress env st userID taskID solved).2 userID
      = (Ok r, st2) ∧
    deref st2 r = <[taskID := solved]> (default ∅ (db st !! userID)) ∧
    deref st2 r !! taskID = Some solved ∧
    ∀ t, t ≠ taskID → deref st2 r !! t = stored (db st) userID t.
Proof.
  intros Hok Hq. rewrite rec_save_state, Hok. cbn [snd].
  eexists _, _. split.
  - apply rec_get_miss_healthy; [simpl; apply lookup_delete_eq | exact Hq].
  - rewrite deref_loaded. cbn [db]. unfold upsertProgress.
    rewrite lookup_insert_eq. simpl. split; [reflexivity |].
    split; [apply lookup_insert_eq |].
    intros t Hne. rewrite lookup_insert_ne by congruence. reflexivity.
Qed.

Lemma rec_save_other_rows env st userID taskID solved u :
  u ≠ userID →
  db (saveUserProgress env st userID taskID solved).2 !! u = db st !! u.
Proof.
  intros Hne. rewrite rec_save_state. destruct (onExec env); simpl; [| reflexivity].
  unfold upsertProgress. apply lookup_insert_ne. congruence.
Qed.

(** X10: a write for one user, accepted or refused, changes nothing that
    another user reads: the other user's rows, cache entry and the content
    of every later read are what they would have been without the write. *)
Theorem write_leaves_other_users env env' st userID taskID solved u :
  u ≠ userID →
  let st1 := (saveUserProgress env st userID taskID solved).2 in
  db st1 !! u = db st !! u ∧
  progressCache st1 !! u = progressCache st !! u ∧
  readContent env' st1 u = readContent env' st u.
Proof.
  intros Hne st1.
  assert (Hrows : db st1 !! u = db st !! u) by (apply rec_save_other_rows; exact Hne).
  assert (Hcache : progressCache st1 !! u = progressCache st !! u).
  { subst st1. rewrite rec_save_state.
    destruct (onExec env); simpl; apply lookup_delete_ne; congruence. }
  assert (Hheap : heap st1 = heap st).
  { subst st1. rewrite rec_save_state. destruct (onExec env); reflexivity. }
  split; [exact Hrows |]. split; [exact Hcache |].
  unfold readContent, getUserProgress. rewrite Hcache.
  destruct (progressCache st !! u) as [r |].
  - unfold deref. rewrite Hheap. reflexivity.
  - destruct (onQuery env') as [| scanFails | seen]; [reflexivity | |];
      unfold selectProgress; rewrite Hrows;
      (destruct (scanRows _ _ ∅) as [m | e]; [| reflexivity]);
      unfold deref; simpl; rewrite Hheap;
      rewrite !lookup_app_r by lia; rewrite !Nat.sub_diag; reflexivity.
Qed.

End ReconciledMore.

(** User 42 of the example state has one row; the scan fails at it. *)
Lemma read_miss_outcomes_witness :
  Reconciled.getUserProgress
    (Reconciled.mkEnv Reconciled.ExecOk (Reconciled.QueryReturns (Some 0%nat)))
    (Reconciled.init {[42 := {[1 := true]}]}) 42
  = (Err ErrScan, Reconciled.init {[42 := {[1 := true]}]}).
Proof.
  destruct (read_miss_outcomes
              (Reconciled.mkEnv Reconciled.ExecOk (Reconciled.QueryReturns (Some 0%nat)))
              (Reconciled.init {[42 := {[1 := true]}]}) 42 eq_refl) as (_ & Hscan & _).
  apply (Hscan 0%nat eq_refl). vm_compute. lia.
Defined.

(** A read of user 42 while the store answers, then one while it is down. *)
Lemma read_served_from_cache_witness :
  Reconciled.getUserProgress Reconciled.outage
    (Reconciled.getUserProgress Reconciled.healthy
       (Reconciled.init {[42 := {[1 := true]}]}) 42).2 42
  = (Ok 0%nat,
     (Reconciled.getUserProgress Reconciled.healthy
        (Reconciled.init {[42 := {[1 := true]}]}) 42).2).
Proof.
  assert (Hfirst :
    Reconciled.getUserProgress Reconciled.healthy
      (Reconciled.init {[42 := {[1 := true]}]}) 42
    = (Ok 0%nat,
       (Reconciled.getUserProgress Reconciled.healthy
          (Reconciled.init {[42 := {[1 := true]}]}) 42).2)).
  { vm_compute. reflexivity. }
  destruct (read_served_from_cache Reconciled.healthy Reconciled.outage
              (Reconciled.init {[42 := {[1 := true]}]}) 42 0%nat
              (Reconciled.getUserProgress Reconciled.healthy
                 (Reconciled.init {[42 := {[1 := true]}]}) 42).2 Hfirst) as [Hagain _].
  exact Hagain.
Defined.

(** User 42 of the example state records task 2 and reads. *)
Lemma write_then_read_witness :
  ∃ r st2,
    Reconciled.getUserProgress Reconciled.healthy
      (Reconciled.saveUserProgress Reconciled.healthy Reconciled.sample 42 2 true).2 42
      = (Ok r, st2) ∧
    Reconciled.deref st2 r = <[2 := true]> (default ∅ (Reconciled.db Reconciled.sample !! 42)).
Proof.
  destruct (write_then_read Reconciled.healthy Reconciled.healthy Reconciled.sample 42 2 true
              eq_refl eq_refl) as (r & st2 & Hget & Hsnap & _).
  exists r, st2. split; [exact Hget | exact Hsnap].
Defined.

(** User 7 is not touched by a write for user 42. *)
Lemma write_leaves_other_users_witness :
  Reconciled.readContent Reconciled.healthy
    (Reconciled.saveUserProgress Reconciled.healthy Reconciled.sample 42 2 true).2 7
  = Reconciled.readContent Reconciled.healthy Reconciled.sample 7.
Proof.
  destruct (write_leaves_other_users Reconciled.healthy Reconciled.healthy
              Reconciled.sample 42 2 true 7 ltac:(discriminate)) as (_ & _ & Hread).
  exact Hread.
Defined.

(** ** The cache against the table *)

Section ReconciledInvariants.
Import Reconciled.

Lemma rec_get_db env st userID : db (getUserProgress env st userID).2 = db st.
Proof.
  destruct (progressCache st !! userID) as [r0 |] eqn:Hu.
  - rewrite (rec_get_hit env st userID r0 Hu). reflexivity.
  - destruct (rec_get_miss_any env st userID Hu) as [(e & -> & _) | ->]; reflexivity.
Qed.

Lemma rec_get_coherent env st userID :
  complete env → coherent st → coherent (getUserProgress env st userID).2.
Proof.
  intros Hfull Hco. destruct (progressCache st !! userID) as [r0 |] eqn:Hu.
  - rewrite (rec_get_hit env st userID r0 Hu). exact Hco.
  - destruct (rec_get_miss env st userID Hfull Hu) as [(e & -> & _) | ->]; [exact Hco |].
    intros u r. simpl. intros Hr.
    apply lookup_insert_Some in Hr as [[<- <-] | [Hne Hr]].
    + rewrite lookup_app_r by lia. rewrite Nat.sub_diag. reflexivity.
    + specialize (Hco u r Hr). rewrite lookup_app_l; [exact Hco |].
      eapply lookup_lt_Some. exact Hco.
Qed.

Lemma deliveredMap_subseteq answer (rows : gmap Z bool) : deliveredMap answer rows ⊆ rows.
Proof.
  destruct answer as [| scanFails | seen]; simpl; try reflexivity.
  apply map_filter_subseteq.
Qed.

Lemma rec_get_within env st userID : within st → within (getUserProgress env st userID).2.
Proof.
  intros Hin. destruct (progressCache st !! userID) as [r0 |] eqn:Hu.
  - rewrite (rec_get_hit env st userID r0 Hu). exact Hin.
  - destruct (rec_get_miss_any env st userID Hu) as [(e & -> & _) | ->]; [exact Hin |].
    intros u r. simpl. intros Hr.
    apply lookup_insert_Some in Hr as [[<- <-] | [Hne Hr]].
    + eexists. split; [rewrite lookup_app_r by lia; rewrite Nat.sub_diag; reflexivity |].
      apply deliveredMap_subseteq.
    + destruct (Hin u r Hr) as (m & Hm & Hsub). exists m. split; [| exact Hsub].
      rewrite lookup_app_l; [exact Hm |]. eapply lookup_lt_Some. exact Hm.
Qed.

Lemma rec_save_within env st userID taskID solved :
  within st → within (saveUserProgress env st userID taskID solved).2.
Proof.
  intros Hin u r Hr.
  assert (Hne : u ≠ userID).
  { intros ->. rewrite rec_save_state in Hr.
    destruct (onExec env); simpl in Hr; rewrite lookup_delete_eq in Hr; discriminate. }
  rewrite rec_save_other_rows by exact Hne.
  rewrite rec_save_state in Hr |- *.
  destruct (onExec env); simpl in *;
    rewrite lookup_delete_ne in Hr by congruence; apply Hin; exact Hr.
Qed.

Lemma rec_init_within table : within (init table).
Proof. intros u r Hr. simpl in Hr. rewrite lookup_empty in Hr. discriminate. Qed.

Lemma rec_run_within updates st : within st → within (run updates st).
Proof.
  apply processUpdates_keeps.
  - intros env st' u. apply rec_get_within.
  - intros env st' u t. apply rec_save_within.
Qed.

Lemma rec_save_coherent env st userID taskID solved :
  coherent st → coherent (saveUserProgress env st userID taskID solved).2.
Proof.
  intros Hco u r Hr.
  assert (Hne : u ≠ userID).
  { intros ->. rewrite rec_save_state in Hr.
    destruct (onExec env); simpl in Hr; rewrite lookup_delete_eq in Hr; discriminate. }
  rewrite rec_save_other_rows by exact Hne.
  rewrite rec_save_state in Hr |- *.
  destruct (onExec env); simpl in *;
    rewrite lookup_delete_ne in Hr by congruence; apply Hco; exact Hr.
Qed.

Lemma rec_init_coherent table : coherent (init table).
Proof. intros u r Hr. simpl in Hr. rewrite lookup_empty in Hr. discriminate. Qed.

Lemma rec_run_coherent updates st :
  Forall (λ eu : StoreEnv * Update, complete eu.1) updates →
  coherent st → coherent (run updates st).
Proof.
  apply (processUpdates_keeps_when getUserProgress saveUserProgress deref complete).
  - intros env st' u. apply rec_get_coherent.
  - intros env st' u t _. apply rec_save_coherent.
Qed.

Lemma rec_get_cached env st userID r st' :
  getUserProgress env st userID = (Ok r, st') → progressCache st' !! userID = Some r.
Proof.
  intros Hget. destruct (progressCache st !! userID) as [r0 |] eqn:Hu.
  - rewrite (rec_get_hit env st userID r0 Hu) in Hget. injection Hget as <- <-.
    exact Hu.
  - destruct (rec_get_miss_any env st userID Hu) as [(e & He & _) | Hok];
      rewrite ?He, ?Hok in Hget; [discriminate |].
    injection Hget as <- <-. simpl. apply lookup_insert_eq.
Qed.

(** X11: the cache against the table.  From start-up (empty cache, any
    table) and through any updates, whatever the store answers, every
    entry of a map the cache holds is a row the table holds for that user:
    a read never reports a flag the table does not hold.  A cached map can
    lack rows of the table, though only after a read whose row iteration
    was cut short: when no read of the run, nor this one, was cut, every
    cached map is the user's current rows, and what [getUserProgress]
    returns, from the cache or from the table, is the table's current
    content for that user, which is also what a restarted process would
    read. *)
Theorem cache_within_table table updates env userID r st' :
  let st := run updates (init table) in
  getUserProgress env st userID = (Ok r, st') →
  within st ∧
  (∀ t v, deref st' r !! t = Some v → stored (db st) userID t = Some v) ∧
  (Forall (λ eu : StoreEnv * Update, complete eu.1) updates → complete env →
   coherent st ∧
   deref st' r = default ∅ (db st !! userID) ∧
   readContent healthy (init (db st)) userID = Ok (deref st' r)).
Proof.
  intros st Hget.
  assert (Hin : within st) by apply rec_run_within, rec_init_within.
  pose proof (rec_get_db env st userID) as Hdb.
  pose proof (rec_get_cached env st userID r st' Hget) as Hcached.
  rewrite Hget in Hdb. simpl in Hdb.
  split; [exact Hin |]. split.
  - pose proof (rec_get_within env st userID Hin) as Hin'.
    rewrite Hget in Hin'. simpl in Hin'.
    destruct (Hin' userID r Hcached) as (m & Hm & Hsub).
    intros t v Hv. unfold deref in Hv. rewrite Hm in Hv. simpl in Hv.
    unfold stored. rewrite <- Hdb.
    eapply lookup_weaken; [exact Hv | exact Hsub].
  - intros Hall Hfull.
    assert (Hco : coherent st) by (apply rec_run_coherent; [exact Hall | apply rec_init_coherent]).
    assert (Hsnap : deref st' r = default ∅ (db st !! userID)).
    { pose proof (rec_get_coherent env st userID Hfull Hco) as Hco'.
      rewrite Hget in Hco'. simpl in Hco'.
      unfold deref. rewrite (Hco' userID r Hcached), Hdb. reflexivity. }
    split; [exact Hco |]. split; [exact Hsnap |].
    unfold readContent.
    rewrite (rec_get_miss_healthy healthy (init (db st)) userID) by reflexivity.
    rewrite deref_loaded, Hsnap. reflexivity.
Qed.

(** X12: the process only ever adds solved tasks to the table.  Through
    any updates, whatever the store answers, each row either reads as it
    did before or reads [true]: no row is removed and no flag is set to
    [false].  Commands never write the table at all. *)
Theorem table_only_gains :
  (∀ updates st userID taskID,
     stored (db (run updates st)) userID taskID = stored (db st) userID taskID ∨
     stored (db (run updates st)) userID taskID = Some true) ∧
  (∀ env st chatID command,
     db (handleCommand getUserProgress deref env st chatID command).2 = db st).
Proof.
  split.
  - intros updates st userID taskID.
    apply (processUpdates_keeps getUserProgress saveUserProgress deref
             (λ s, stored (db s) userID taskID = stored (db st) userID taskID ∨
                   stored (db s) userID taskID = Some true)).
    + intros env s u H. rewrite rec_get_db. exact H.
    + intros env s u t H. rewrite rec_save_state.
      destruct (onExec env); simpl; [| exact H].
      rewrite stored_upsert. case_decide; [right; reflexivity | exact H].
    + left. reflexivity.
  - intros env st chatID command.
    apply (handleCommand_keeps getUserProgress deref (λ s, db s = db st)).
    + intros env' s u H. rewrite rec_get_db. exact H.
    + reflexivity.
Qed.

Lemma rec_upsert_commute table userID t1 t2 s1 s2 :
  t1 ≠ t2 →
  upsertProgress (upsertProgress table userID t1 s1) userID t2 s2 =
  upsertProgress (upsertProgress table userID t2 s2) userID t1 s1.
Proof.
  intros Hne. unfold upsertProgress. rewrite !lookup_insert_eq. simpl.
  rewrite !insert_insert_eq. f_equal. apply insert_insert_ne. congruence.
Qed.

End ReconciledInvariants.

(** User 42 answers task 2 correctly, then reads. *)
Lemma cache_within_table_witness :
  Reconciled.deref
    (Reconciled.getUserProgress Reconciled.outage
       (Reconciled.run [(Reconciled.healthy, UpdCallback (mkQuery "q" 42 "2:int"))]
          (Reconciled.init {[42 := {[1 := true]}]})) 42).2 0%nat
  = default ∅
      (Reconciled.db
         (Reconciled.run [(Reconciled.healthy, UpdCallback (mkQuery "q" 42 "2:int"))]
            (Reconciled.init {[42 := {[1 := true]}]})) !! 42).
Proof.
  assert (Hget :
    Reconciled.getUserProgress Reconciled.outage
      (Reconciled.run [(Reconciled.healthy, UpdCallback (mkQuery "q" 42 "2:int"))]
         (Reconciled.init {[42 := {[1 := true]}]})) 42
    = (Ok 0%nat,
       (Reconciled.getUserProgress Reconciled.outage
          (Reconciled.run [(Reconciled.healthy, UpdCallback (mkQuery "q" 42 "2:int"))]
             (Reconciled.init {[42 := {[1 := true]}]})) 42).2)).
  { vm_compute. reflexivity. }
  destruct (cache_within_table {[42 := {[1 := true]}]}
              [(Reconciled.healthy, UpdCallback (mkQuery "q" 42 "2:int"))]
              Reconciled.outage 42 0%nat _ Hget) as (_ & _ & Hfull).
  destruct Hfull as (_ & Hsnap & _); [repeat constructor | exact I |].
  exact Hsnap.
Defined.

(** ** Writes that meet *)

Section CacheOnlyMore.
Import CacheOnly.

Lemma co_get_shape env st userID r st' :
  getUserProgress env st userID = (Ok r, st') →
  (progressCache st !! userID = Some r ∧ st' = st) ∨
  (progressCache st !! userID = None ∧ r = length (heap st) ∧
   st' = mkState (heap st ++ [∅]) (<[userID := length (heap st)]> (progressCache st))).
Proof.
  intros Hget. destruct (progressCache st !! userID) as [r0 |] eqn:Hu.
  - rewrite (co_get_hit env st userID r0 Hu) in Hget. injection Hget as <- <-.
    left. split; reflexivity.
  - rewrite (co_get_miss env st userID Hu) in Hget. injection Hget as <- <-.
    right. repeat split.
Qed.

(** What a write does, seen through the reference the cache holds. *)
Lemma co_save_effect st userID taskID solved :
  wf st →
  ∃ r st0,
    getUserProgress tt st userID = (Ok r, st0) ∧
    progressCache (saveUserProgress tt st userID taskID solved).2 !! userID = Some r ∧
    deref (saveUserProgress tt st userID taskID solved).2 r
      = <[taskID := solved]> (deref st0 r).
Proof.
  intros Hwf. destruct (co_get_ok tt st userID) as (r & st0 & Hget & Hcached).
  pose proof (co_get_valid tt st userID r st0 Hwf Hget) as Hvalid.
  exists r, st0. split; [exact Hget |].
  rewrite (co_save_state tt st userID taskID solved r st0 Hget). simpl.
  split; [apply lookup_insert_eq |].
  rewrite co_deref_alter, decide_True by done. reflexivity.
Qed.

Lemma co_save_commute st userID t1 t2 s1 s2 :
  t1 ≠ t2 →
  (saveUserProgress tt (saveUserProgress tt st userID t1 s1).2 userID t2 s2).2 =
  (saveUserProgress tt (saveUserProgress tt st userID t2 s2).2 userID t1 s1).2.
Proof.
  intros Hne. destruct (co_get_ok tt st userID) as (r & st0 & Hget & Hcached).
  rewrite (co_save_state tt st userID t1 s1 r st0 Hget).
  rewrite (co_save_state tt st userID t2 s2 r st0 Hget). simpl.
  erewrite !co_save_state by (apply co_get_hit; simpl; apply lookup_insert_eq).
  simpl. f_equal.
  rewrite !list_alter_alter_eq. apply list_alter_ext; [| reflexivity].
  intros m _. simpl. apply insert_insert_ne. congruence.
Qed.

End CacheOnlyMore.

(** X13: no update is lost.  Two writes for different tasks of one user
    leave the same state in either order, and the state holds both flags:
    in the build over the table when the store accepts both, in the build
    over the cache alone from every well-formed state. *)
Theorem writes_commute :
  (∀ env1 env2 st userID t1 t2 s1 s2,
     Reconciled.onExec env1 = Reconciled.ExecOk →
     Reconciled.onExec env2 = Reconciled.ExecOk →
     t1 ≠ t2 →
     let a := (Reconciled.saveUserProgress env2
                 (Reconciled.saveUserProgress env1 st userID t1 s1).2 userID t2 s2).2 in
     let b := (Reconciled.saveUserProgress env1
                 (Reconciled.saveUserProgress env2 st userID t2 s2).2 userID t1 s1).2 in
     a = b ∧
     Reconciled.stored (Reconciled.db a) userID t1 = Some s1 ∧
     Reconciled.stored (Reconciled.db a) userID t2 = Some s2) ∧
  (∀ st userID t1 t2 s1 s2,
     CacheOnly.wf st →
     t1 ≠ t2 →
     let a := (CacheOnly.saveUserProgress tt
                 (CacheOnly.saveUserProgress tt st userID t1 s1).2 userID t2 s2).2 in
     let b := (CacheOnly.saveUserProgress tt
                 (CacheOnly.saveUserProgress tt st userID t2 s2).2 userID t1 s1).2 in
     a = b ∧
     ∃ r, CacheOnly.getUserProgress tt a userID = (Ok r, a) ∧
          CacheOnly.deref a r !! t1 = Some s1 ∧
          CacheOnly.deref a r !! t2 = Some s2).
Proof.
  split.
  - intros env1 env2 st userID t1 t2 s1 s2 H1 H2 Hne a b. subst a b.
    rewrite !rec_save_state, H1, H2. simpl. split; [| split].
    + rewrite rec_upsert_commute by exact Hne. reflexivity.
    + rewrite !stored_upsert.
      rewrite decide_False by (intros [_ ?]; congruence).
      rewrite decide_True by done. reflexivity.
    + rewrite stored_upsert, decide_True by done. reflexivity.
  - intros st userID t1 t2 s1 s2 Hwf Hne a b.
    split; [apply co_save_commute; exact Hne |].
    destruct (co_save_effect st userID t1 s1 Hwf) as (r & st0 & Hget0 & Hc1 & Hd1).
    pose proof (co_save_wf tt st userID t1 s1 Hwf) as Hwf1.
    destruct (co_save_effect _ userID t2 s2 Hwf1) as (r' & st1 & Hget1 & Hc2 & Hd2).
    rewrite (co_get_hit tt _ userID r Hc1) in Hget1. injection Hget1 as <- <-.
    fold a in Hc2, Hd2. exists r.
    split; [apply co_get_hit; exact Hc2 |].
    rewrite Hd2, Hd1. split.
    + rewrite lookup_insert_ne by congruence. apply lookup_insert_eq.
    + apply lookup_insert_eq.
Qed.

(** User 42 records tasks 1 and 2 at start-up, in both orders. *)
Lemma writes_commute_witness :
  (CacheOnly.saveUserProgress tt
     (CacheOnly.saveUserProgress tt CacheOnly.init 42 1 true).2 42 2 true).2 =
  (CacheOnly.saveUserProgress tt
     (CacheOnly.saveUserProgress tt CacheOnly.init 42 2 true).2 42 1 true).2.
Proof.
  destruct writes_commute as [_ Hco].
  destruct (Hco CacheOnly.init 42 1 2 true true co_init_wf ltac:(discriminate))
    as [Heq _].
  exact Heq.
Defined.

(** ** One map per user *)

Section CacheOnlySeparation.
Import CacheOnly.

Lemma co_get_separated env st userID :
  separated st → separated (getUserProgress env st userID).2.
Proof.
  intros [Hwf Hinj]. split; [apply co_get_wf; exact Hwf |].
  destruct (progressCache st !! userID) as [r0 |] eqn:Hu.
  - rewrite (co_get_hit env st userID r0 Hu). exact Hinj.
  - rewrite (co_get_miss env st userID Hu). simpl. intros u u' r Hr Hr'.
    apply lookup_insert_Some in Hr as [[<- <-] | [Hne Hr]];
      apply lookup_insert_Some in Hr' as [[<- Heq] | [Hne' Hr']].
    + reflexivity.
    + specialize (Hwf u' _ Hr'). lia.
    + subst r. specialize (Hwf u _ Hr). lia.
    + apply (Hinj u u' r Hr Hr').
Qed.

Lemma co_save_separated env st userID taskID solved :
  separated st → separated (saveUserProgress env st userID taskID solved).2.
Proof.
  intros Hsep. split; [apply co_save_wf; apply Hsep |].
  destruct (co_get_ok env st userID) as (r & st0 & Hget & Hcached).
  pose proof (co_get_separated env st userID Hsep) as [_ Hinj0].
  rewrite Hget in Hinj0. simpl in Hinj0.
  rewrite (co_save_state env st userID taskID solved r st0 Hget). simpl.
  rewrite insert_id by exact Hcached. exact Hinj0.
Qed.

Lemma co_init_separated : separated init.
Proof.
  split; [apply co_init_wf |]. intros u u' r Hr. simpl in Hr.
  rewrite lookup_empty in Hr. discriminate.
Qed.

Lemma co_run_separated updates st : separated st → separated (run updates st).
Proof.
  apply processUpdates_keeps.
  - intros env st' u. apply co_get_separated.
  - intros env st' u t. apply co_save_separated.
Qed.

Lemma co_readContent_hit st userID r :
  progressCache st !! userID = Some r → readContent st userID = Ok (deref st r).
Proof. intros Hu. unfold readContent. rewrite (co_get_hit tt st userID r Hu). reflexivity. Qed.

Lemma co_readContent_miss st userID :
  progressCache st !! userID = None → readContent st userID = Ok ∅.
Proof.
  intros Hu. unfold readContent. rewrite (co_get_miss tt st userID Hu).
  unfold deref. simpl. rewrite lookup_app_r by lia. rewrite Nat.sub_diag. reflexivity.
Qed.

Lemma co_save_other_user st userID taskID solved u :
  separated st → u ≠ userID →
  readContent (saveUserProgress tt st userID taskID solved).2 u = readContent st u.
Proof.
  intros [Hwf Hinj] Hne.
  destruct (co_get_ok tt st userID) as (r0 & st0 & Hget & _).
  rewrite (co_save_state tt st userID taskID solved r0 st0 Hget). simpl.
  apply co_get_shape in Hget as [[Hhit ->] | (Hmiss & -> & ->)].
  - destruct (progressCache st !! u) as [r |] eqn:Hu.
    + rewrite (co_readContent_hit st u r Hu).
      rewrite (co_readContent_hit _ u r)
        by (simpl; rewrite lookup_insert_ne by congruence; exact Hu).
      f_equal. rewrite co_deref_alter. rewrite decide_False; [reflexivity |].
      intros [-> _]. apply Hne. apply (Hinj u userID r Hu Hhit).
    + rewrite (co_readContent_miss st u Hu).
      apply co_readContent_miss. simpl. rewrite lookup_insert_ne by congruence. exact Hu.
  - simpl. destruct (progressCache st !! u) as [r |] eqn:Hu.
    + rewrite (co_readContent_hit st u r Hu).
      rewrite (co_readContent_hit _ u r)
        by (simpl; rewrite !lookup_insert_ne by congruence; exact Hu).
      f_equal. rewrite co_deref_alter.
      pose proof (Hwf u r Hu) as Hvalid.
      rewrite decide_False by (intros [? _]; lia).
      unfold deref. rewrite lookup_app_l by exact Hvalid. reflexivity.
    + rewrite (co_readContent_miss st u Hu).
      apply co_readContent_miss. simpl. rewrite !lookup_insert_ne by congruence. exact Hu.
Qed.

End CacheOnlySeparation.

(** X14: in the build over the cache alone every user has a map of their
    own.  In every state the process reaches, cached references are
    allocated and no two users share one; from such a state a write for
    one user changes nothing that another user reads. *)
Theorem users_do_not_share_progress :
  (∀ updates, CacheOnly.separated (CacheOnly.run updates CacheOnly.init)) ∧
  (∀ st userID taskID solved u,
     CacheOnly.separated st → u ≠ userID →
     CacheOnly.readContent (CacheOnly.saveUserProgress tt st userID taskID solved).2 u
       = CacheOnly.readContent st u).
Proof.
  split.
  - intros updates. apply co_run_separated, co_init_separated.
  - apply co_save_other_user.
Qed.

(** User 7 after user 42 has answered task 1 correctly and recorded task 2. *)
Lemma users_do_not_share_progress_witness :
  CacheOnly.readContent
    (CacheOnly.saveUserProgress tt
       (CacheOnly.run [(tt, UpdCallback (mkQuery "q" 42 "1:var"))] CacheOnly.init)
       42 2 true).2 7
  = CacheOnly.readContent
      (CacheOnly.run [(tt, UpdCallback (mkQuery "q" 42 "1:var"))] CacheOnly.init) 7.
Proof.
  destruct users_do_not_share_progress as [Hreach Hother].
  apply Hother; [apply Hreach | discriminate].
Defined.

(** ** Progress within the catalog *)

Section HandlerCatalogFacts.

Context {St Env : Type}.
Variable getP : Env → St → Z → result loc * St.
Variable saveP : Env → St → Z → Z → bool → option error * St.
Variable deref : St → loc → gmap Z bool.
Variable P : St → Prop.
Hypothesis get_keeps : ∀ env st userID, P st → P (getP env st userID).2.
Hypothesis save_catalog_keeps :
  ∀ env st userID task, task ∈ getTasks → P st → P (saveP env st userID (ID task) true).2.

Lemma getNextTask_state env st userID :
  (getNextTask getP deref env st userID).2 = (getP env st userID).2.
Proof. unfold getNextTask. destruct (getP env st userID) as [[r | e] st']; reflexivity. Qed.

(** The only write of the handlers is for a task of the catalog, as
    solved. *)
Lemma handleCallbackQuery_keeps_catalog env st query :
  P st → P (handleCallbackQuery getP saveP deref env st query).2.
Proof.
  intros HP. unfold handleCallbackQuery.
  destruct (Go.SplitN2 (Data query) ":") as [| p0 [| p1 [| ? ?]]]; try exact HP.
  destruct (Go.Atoi p0) as [taskID |]; [| exact HP].
  destruct (findTask taskID) as [task |] eqn:Hfind; [| exact HP].
  destruct (answerCorrect task p1); [| exact HP].
  apply findTaskIn_Some in Hfind as [Hin _].
  pose proof (save_catalog_keeps env st (From query) task Hin HP) as Hsave.
  destruct (saveP env st (From query) (ID task) true) as [[e |] st1];
    simpl in Hsave;
    pose proof (getNextTask_keeps getP deref P get_keeps env st1 (From query) Hsave)
      as Hnext;
    destruct (getNextTask getP deref env st1 (From query)) as [[[next |] out] st3];
    exact Hnext.
Qed.

Lemma processUpdates_keeps_catalog updates : ∀ st,
  P st → P (processUpdates getP saveP deref updates st).2.
Proof.
  induction updates as [| [env update] rest IH]; intros st HP; simpl; [exact HP |].
  assert (Hstep : P (handleUpdate getP saveP deref env st update).2).
  { destruct update as [query | chatID command |]; simpl.
    - apply handleCallbackQuery_keeps_catalog; exact HP.
    - apply (handleCommand_keeps getP deref P get_keeps); exact HP.
    - exact HP. }
  destruct (handleUpdate getP saveP deref env st update) as [out st'].
  specialize (IH st' Hstep).
  destruct (processUpdates getP saveP deref rest st') as [outs st'']. exact IH.
Qed.

End HandlerCatalogFacts.

(** A map that holds catalog tasks only, each as solved: its solved count
    is its size, at most the size of the catalog, and the selection loop
    finds nothing exactly when the count is the size of the catalog. *)
Lemma catalog_snapshot_count (m : gmap Z bool) :
  (∀ k v, m !! k = Some v → v = true ∧ ∃ task, task ∈ getTasks ∧ ID task = k) →
  solvedCount m = size m ∧
  (solvedCount m ≤ length getTasks)%nat ∧
  (firstUnsolved getTasks m = None ↔ solvedCount m = length getTasks).
Proof.
  intros Hcat.
  assert (Hcount : solvedCount m = size m).
  { unfold solvedCount. rewrite map_filter_id; [reflexivity |].
    intros i x Hx. simpl. apply Hcat in Hx as [-> _]. reflexivity. }
  set (ids := list_to_set (ID <$> getTasks) : gset Z).
  assert (Hsub : dom m ⊆ ids).
  { intros k Hk. apply elem_of_dom in Hk as [v Hv].
    apply Hcat in Hv as (_ & task & Hin & <-).
    apply elem_of_list_to_set, list_elem_of_fmap. exists task. auto. }
  assert (Hsize : size ids = length getTasks).
  { unfold ids. rewrite size_list_to_set by apply getTasks_ids_NoDup.
    apply length_fmap. }
  pose proof (subseteq_size _ _ Hsub) as Hle. rewrite size_dom in Hle.
  split; [exact Hcount |]. split; [lia |].
  rewrite firstUnsolved_None, Forall_forall. split.
  - intros Hall. apply Nat.le_antisymm; [lia |].
    rewrite Hcount, <- Hsize, <- (size_dom (D := gset Z) m). apply subseteq_size.
    intros k Hk. apply elem_of_list_to_set, list_elem_of_fmap in Hk as (task & -> & Hin).
    apply elem_of_dom. exists true. apply (Hall task Hin).
  - intros Hfull task Hin.
    assert (Heq : dom m = ids).
    { apply set_subseteq_size_eq; [exact Hsub |]. rewrite size_dom. lia. }
    assert (Hk : ID task ∈ dom m).
    { rewrite Heq. apply elem_of_list_to_set, list_elem_of_fmap. exists task. auto. }
    apply elem_of_dom in Hk as [v Hv]. unfold solvedIn.
    destruct (Hcat _ _ Hv) as [-> _]. exact Hv.
Qed.

Section CacheOnlyCatalog.
Import CacheOnly.

Lemma co_get_catalogOnly env st userID :
  catalogOnly st → catalogOnly (getUserProgress env st userID).2.
Proof.
  intros Hcat. destruct (progressCache st !! userID) as [r0 |] eqn:Hu.
  - rewrite (co_get_hit env st userID r0 Hu). exact Hcat.
  - rewrite (co_get_miss env st userID Hu). intros m Hm. simpl in Hm.
    apply elem_of_app in Hm as [Hm | Hm]; [apply Hcat; exact Hm |].
    apply list_elem_of_singleton in Hm as ->.
    intros k v Hk. rewrite lookup_empty in Hk. discriminate.
Qed.

Lemma co_save_catalogOnly env st userID task :
  task ∈ getTasks → catalogOnly st →
  catalogOnly (saveUserProgress env st userID (ID task) true).2.
Proof.
  intros Hin Hcat. destruct (co_get_ok env st userID) as (r & st0 & Hget & _).
  pose proof (co_get_catalogOnly env st userID Hcat) as Hcat0.
  rewrite Hget in Hcat0. simpl in Hcat0.
  rewrite (co_save_state env st userID (ID task) true r st0 Hget).
  intros m Hm. simpl in Hm. apply list_elem_of_lookup in Hm as [i Hi].
  rewrite list_lookup_alter in Hi. destruct (decide (r = i)) as [<- | Hne].
  - destruct (heap st0 !! r) as [m0 |] eqn:Hm0; [| discriminate].
    simpl in Hi. injection Hi as <-. intros k v Hk.
    apply lookup_insert_Some in Hk as [[<- <-] | [_ Hk]].
    + split; [reflexivity |]. exists task. auto.
    + apply (Hcat0 m0); [eapply list_elem_of_lookup_2; exact Hm0 | exact Hk].
  - apply Hcat0. eapply list_elem_of_lookup_2. exact Hi.
Qed.

Lemma co_init_catalogOnly : catalogOnly init.
Proof. intros m Hm. simpl in Hm. inversion Hm. Qed.

Lemma co_run_catalogOnly updates st : catalogOnly st → catalogOnly (run updates st).
Proof.
  apply processUpdates_keeps_catalog.
  - intros env st' u. apply co_get_catalogOnly.
  - intros env st' u task. apply co_save_catalogOnly.
Qed.

End CacheOnlyCatalog.

(** X15: in the build over the cache alone, whatever updates the process
    has handled since start-up, the map [getUserProgress] returns holds
    catalog tasks only, each as solved.  So the solved count of the
    progress report is at most the number of catalog tasks, and the
    selection finds no next task exactly when the report counts all of
    them. *)
Theorem progress_within_catalog updates userID r st' :
  CacheOnly.getUserProgress tt (CacheOnly.run updates CacheOnly.init) userID = (Ok r, st') →
  let snapshot := CacheOnly.deref st' r in
  (∀ k v, snapshot !! k = Some v → v = true ∧ ∃ task, task ∈ getTasks ∧ ID task = k) ∧
  (solvedCount snapshot ≤ length getTasks)%nat ∧
  (firstUnsolved getTasks snapshot = None ↔ solvedCount snapshot = length getTasks).
Proof.
  intros Hget snapshot.
  assert (Hcat : CacheOnly.catalogOnly st').
  { pose proof (co_get_catalogOnly tt _ userID
                  (co_run_catalogOnly updates _ co_init_catalogOnly)) as H.
    rewrite Hget in H. exact H. }
  assert (Hsnap : ∀ k v, snapshot !! k = Some v →
                         v = true ∧ ∃ task, task ∈ getTasks ∧ ID task = k).
  { intros k v Hk. subst snapshot. unfold CacheOnly.deref in Hk.
    destruct (CacheOnly.heap st' !! r) as [m |] eqn:Hm.
    - apply (Hcat m); [eapply list_elem_of_lookup_2; exact Hm | exact Hk].
    - simpl in Hk. rewrite lookup_empty in Hk. discriminate. }
  split; [exact Hsnap |]. apply catalog_snapshot_count in Hsnap as (_ & Hle & Hiff).
  split; assumption.
Qed.

(** User 42 after answering tasks 1 and 2 correctly. *)
Lemma progress_within_catalog_witness :
  (solvedCount
     (CacheOnly.deref
        (CacheOnly.run [(tt, UpdCallback (mkQuery "a" 42 "1:var"));
                        (tt, UpdCallback (mkQuery "b" 42 "2:int"))] CacheOnly.init)
        0%nat) ≤ length getTasks)%nat.
Proof.
  assert (Hget :
    CacheOnly.getUserProgress tt
      (CacheOnly.run [(tt, UpdCallback (mkQuery "a" 42 "1:var"));
                      (tt, UpdCallback (mkQuery "b" 42 "2:int"))] CacheOnly.init) 42
    = (Ok 0%nat,
       CacheOnly.run [(tt, UpdCallback (mkQuery "a" 42 "1:var"));
                      (tt, UpdCallback (mkQuery "b" 42 "2:int"))] CacheOnly.init)).
  { vm_compute. reflexivity. }
  destruct (progress_within_catalog _ 42 0%nat _ Hget) as (_ & Hle & _).
  exact Hle.
Defined.

(** ** A correct answer *)

Lemma firstUnsolved_other tasks (m : gmap Z bool) taskID t' :
  m !! taskID = Some true →
  firstUnsolved tasks m = Some t' →
  t' ∈ tasks ∧ ID t' ≠ taskID ∧ m !! ID t' ≠ Some true.
Proof.
  intros Hsolved Hnext. apply firstUnsolved_Some in Hnext as (pre & post & -> & _ & Hun).
  split; [apply elem_of_app; right; left |].
  split; [| exact Hun]. intros Heq. apply Hun. unfold solvedIn. rewrite Heq. exact Hsolved.
Qed.

(** X16: in the build over the cache alone, from a well-formed state, the
    task's own answer to a catalog task gets the "correct" feedback, the
    task is recorded as solved for the sender, and what follows is either
    the closing message or a catalog task the sender has not solved, never
    the task just answered. *)
Theorem correct_answer_advances st query task :
  CacheOnly.wf st →
  task ∈ getTasks →
  Data query = callbackData task (Answer task) →
  ∃ next,
    handleCallbackQuery CacheOnly.getUserProgress CacheOnly.saveUserProgress
      CacheOnly.deref tt st query =
      ([AnswerCallback (QueryID query) msgCorrect; next],
       (CacheOnly.saveUserProgress tt st (From query) (ID task) true).2) ∧
    CacheOnly.solvedInCache (From query) (ID task)
      (CacheOnly.saveUserProgress tt st (From query) (ID task) true).2 ∧
    (next = SendMessage (From query) msgNoMoreTasks ∨
     ∃ t', next = sendTask (From query) t' ∧ t' ∈ getTasks ∧ ID t' ≠ ID task).
Proof.
  intros Hwf Hin Hdata.
  assert (Hparse : parseCallback (Data query) = Some (ID task, Answer task)).
  { rewrite Hdata. apply parseCallback_encode, getTasks_ids_int. exact Hin. }
  pose proof (findTask_catalog task Hin) as Hfind.
  pose proof (co_save_establishes tt st (From query) (ID task) Hwf) as Hinv.
  destruct (co_get_ok tt st (From query)) as (r0 & st0 & Hget0 & _).
  pose proof (co_save_state tt st (From query) (ID task) true r0 st0 Hget0) as Hsave.
  rewrite Hsave in Hinv |- *. cbn [snd] in Hinv |- *.
  set (st1 := CacheOnly.mkState _ _) in *.
  destruct Hinv as (r & Hr & Hsolved).
  assert (Hnext : getNextTask CacheOnly.getUserProgress CacheOnly.deref tt st1 (From query)
                  = (firstUnsolved getTasks (CacheOnly.deref st1 r), [], st1)).
  { unfold getNextTask. rewrite (co_get_hit tt st1 (From query) r Hr). reflexivity. }
  rewrite (handleCallbackQuery_correct CacheOnly.getUserProgress CacheOnly.saveUserProgress
             CacheOnly.deref tt st query (ID task) task Hparse Hfind _ _ _ _ _ Hsave Hnext).
  eexists. split; [reflexivity |]. split; [exists r; split; assumption |].
  destruct (firstUnsolved getTasks (CacheOnly.deref st1 r)) as [t' |] eqn:Hfirst.
  - right. exists t'. split; [reflexivity |].
    destruct (firstUnsolved_other _ _ _ _ Hsolved Hfirst) as (Ht' & Hne & _). auto.
  - left. reflexivity.
Qed.

(** X17: in the build over the table, when the store accepts the write and
    answers the read, the task's own answer to a catalog task gets the
    "correct" feedback, the table then holds the task as solved for the
    sender, and what follows is either the closing message or a catalog
    task other than the one just answered. *)
Theorem correct_answer_recorded env st query task :
  Reconciled.onExec env = Reconciled.ExecOk →
  Reconciled.onQuery env = Reconciled.QueryReturns None →
  task ∈ getTasks →
  Data query = callbackData task (Answer task) →
  ∃ next st',
    handleCallbackQuery Reconciled.getUserProgress Reconciled.saveUserProgress
      Reconciled.deref env st query =
      ([AnswerCallback (QueryID query) msgCorrect; next], st') ∧
    Reconciled.durablySolved (From query) (ID task) st' ∧
    (next = SendMessage (From query) msgNoMoreTasks ∨
     ∃ t', next = sendTask (From query) t' ∧ t' ∈ getTasks ∧ ID t' ≠ ID task).
Proof.
  intros Hok Hq Hin Hdata.
  assert (Hparse : parseCallback (Data query) = Some (ID task, Answer task)).
  { rewrite Hdata. apply parseCallback_encode, getTasks_ids_int. exact Hin. }
  pose proof (findTask_catalog task Hin) as Hfind.
  pose proof (rec_save_establishes env st (From query) (ID task) Hok) as Hinv.
  destruct (Reconciled.saveUserProgress env st (From query) (ID task) true)
    as [err st1] eqn:Hsave.
  assert (Herr : err = None).
  { rewrite rec_save_state, Hok in Hsave. congruence. }
  subst err. cbn [snd] in Hinv.
  destruct (rec_get_returns env st1 (From query) Hq) as (r & st2 & Hget).
  pose proof (rec_get_reports _ _ env st1 r st2 (complete_returns env Hq) Hinv Hget)
    as Hsolved.
  pose proof (rec_get_keeps (From query) (ID task) env st1 (From query)
                (complete_returns env Hq) Hinv) as Hinv2.
  rewrite Hget in Hinv2. cbn [snd] in Hinv2.
  assert (Hnext : getNextTask Reconciled.getUserProgress Reconciled.deref env st1 (From query)
                  = (firstUnsolved getTasks (Reconciled.deref st2 r), [], st2)).
  { unfold getNextTask. rewrite Hget. reflexivity. }
  rewrite (handleCallbackQuery_correct Reconciled.getUserProgress
             Reconciled.saveUserProgress Reconciled.deref env st query (ID task) task
             Hparse Hfind _ _ _ _ _ Hsave Hnext).
  eexists _, st2. split; [reflexivity |]. split; [exact Hinv2 |].
  destruct (firstUnsolved getTasks (Reconciled.deref st2 r)) as [t' |] eqn:Hfirst.
  - right. exists t'. split; [reflexivity |].
    destruct (firstUnsolved_other _ _ _ _ Hsolved Hfirst) as (Ht' & Hne & _). auto.
  - left. reflexivity.
Qed.

(** X18: in the build over the table, when the store refuses the write,
    the failure is only logged: the sender of a correct answer still gets
    the "correct" feedback, and the table is left as it was, so the answer
    is not recorded. *)
Theorem refused_write_only_logged env st query task :
  Reconciled.onExec env = Reconciled.ExecFails →
  task ∈ getTasks →
  Data query = callbackData task (Answer task) →
  ∃ rest st',
    handleCallbackQuery Reconciled.getUserProgress Reconciled.saveUserProgress
      Reconciled.deref env st query =
      (Log logSaveError :: AnswerCallback (QueryID query) msgCorrect :: rest, st') ∧
    Reconciled.db st' = Reconciled.db st.
Proof.
  intros Hfail Hin Hdata.
  assert (Hparse : parseCallback (Data query) = Some (ID task, Answer task)).
  { rewrite Hdata. apply parseCallback_encode, getTasks_ids_int. exact Hin. }
  pose proof (findTask_catalog task Hin) as Hfind.
  destruct (Reconciled.saveUserProgress env st (From query) (ID task) true)
    as [err st1] eqn:Hsave.
  rewrite rec_save_state, Hfail in Hsave. injection Hsave as <- <-.
  match goal with
  | |- context [handleCallbackQuery _ _ _ _ _ _] =>
      destruct (getNextTask Reconciled.getUserProgress Reconciled.deref env
                  (Reconciled.mkState (Reconciled.db st) (Reconciled.heap st)
                     (delete (From query) (Reconciled.progressCache st))) (From query))
        as [[next out] st3] eqn:Hnext
  end.
  rewrite (handleCallbackQuery_correct Reconciled.getUserProgress
             Reconciled.saveUserProgress Reconciled.deref env st query (ID task) task
             Hparse Hfind (Some ErrExec) _ next out st3
             ltac:(rewrite rec_save_state, Hfail; reflexivity) Hnext).
  eexists _, st3. split; [reflexivity |].
  pose proof (getNextTask_state Reconciled.getUserProgress Reconciled.deref env
                (Reconciled.mkState (Reconciled.db st) (Reconciled.heap st)
                   (delete (From query) (Reconciled.progressCache st))) (From query))
    as Hstate.
  rewrite Hnext in Hstate. cbn [snd] in Hstate. rewrite Hstate, rec_get_db. reflexivity.
Qed.

(** User 42 answers task 1 correctly at start-up and is sent task 2. *)
Lemma correct_answer_advances_witness :
  ∃ next,
    handleCallbackQuery CacheOnly.getUserProgress CacheOnly.saveUserProgress
      CacheOnly.deref tt CacheOnly.init (mkQuery "q" 42 "1:var") =
      ([AnswerCallback "q" msgCorrect; next],
       (CacheOnly.saveUserProgress tt CacheOnly.init 42 1 true).2).
Proof.
  destruct (correct_answer_advances CacheOnly.init (mkQuery "q" 42 "1:var")
              (mkTask 1 "Какой оператор используется для объявления переменной в Go?"
                 "var" ["let"; "const"; "var"; "define"])
              co_init_wf ltac:(apply list_elem_of_here) eq_refl) as (next & Hrun & _).
  exists next. exact Hrun.
Defined.

(** User 42 of the example state answers task 2 correctly. *)
Lemma correct_answer_recorded_witness :
  ∃ next st',
    handleCallbackQuery Reconciled.getUserProgress Reconciled.saveUserProgress
      Reconciled.deref Reconciled.healthy Reconciled.sample (mkQuery "q" 42 "2:int") =
      ([AnswerCallback "q" msgCorrect; next], st') ∧
    Reconciled.durablySolved 42 2 st'.
Proof.
  destruct (correct_answer_recorded Reconciled.healthy Reconciled.sample
              (mkQuery "q" 42 "2:int")
              (mkTask 2 "Какой тип данных используется для целых чисел в Go?"
                 "int" ["integer"; "float"; "int"; "number"])
              eq_refl eq_refl
              ltac:(apply list_elem_of_further, list_elem_of_here) eq_refl)
    as (next & st' & Hrun & Hsolved & _).
  exists next, st'. split; assumption.
Defined.

(** The same answer while the store refuses writes. *)
Lemma refused_write_only_logged_witness :
  ∃ rest st',
    handleCallbackQuery Reconciled.getUserProgress Reconciled.saveUserProgress
      Reconciled.deref Reconciled.writeFails Reconciled.sample (mkQuery "q" 42 "2:int") =
      (Log logSaveError :: AnswerCallback "q" msgCorrect :: rest, st') ∧
    Reconciled.db st' = Reconciled.db Reconciled.sample.
Proof.
  apply (refused_write_only_logged Reconciled.writeFails Reconciled.sample
           (mkQuery "q" 42 "2:int")
           (mkTask 2 "Какой тип данных используется для целых чисел в Go?"
              "int" ["integer"; "float"; "int"; "number"])).
  - reflexivity.
  - apply list_elem_of_further, list_elem_of_here.
  - reflexivity.
Defined.

(** ** Commands asked again, and a user seen for the first time *)

Section RepeatFacts.

Context {St Env : Type}.
Variable getP : Env → St → Z → result loc * St.
Variable deref : St → loc → gmap Z bool.
Hypothesis get_again :
  ∀ env env' st userID r st', getP env st userID = (Ok r, st') →
                              getP env' st' userID = (Ok r, st').

Lemma handleTaskCommand_again env env' st chatID r st1 :
  getP env st chatID = (Ok r, st1) →
  handleTaskCommand getP deref env' (handleTaskCommand getP deref env st chatID).2 chatID
    = handleTaskCommand getP deref env st chatID.
Proof.
  intros Hget. pose proof (get_again env env' st chatID r st1 Hget) as Hagain.
  unfold handleTaskCommand, getNextTask. rewrite Hget.
  destruct (firstUnsolved getTasks (deref st1 r)) eqn:Hfirst; cbn [snd];
    rewrite Hagain, Hfirst; reflexivity.
Qed.

Lemma showProgress_again env env' st chatID r st1 :
  getP env st chatID = (Ok r, st1) →
  showProgress getP deref env' (showProgress getP deref env st chatID).2 chatID
    = showProgress getP deref env st chatID.
Proof.
  intros Hget. pose proof (get_again env env' st chatID r st1 Hget) as Hagain.
  unfold showProgress. rewrite Hget. cbn [snd]. rewrite Hagain. reflexivity.
Qed.

End RepeatFacts.

Lemma rec_get_again env env' st userID r st' :
  Reconciled.getUserProgress env st userID = (Ok r, st') →
  Reconciled.getUserProgress env' st' userID = (Ok r, st').
Proof.
  intros Hget. destruct (Reconciled.progressCache st !! userID) as [r0 |] eqn:Hu.
  - rewrite (rec_get_hit env st userID r0 Hu) in Hget. injection Hget as <- <-.
    apply rec_get_hit. exact Hu.
  - destruct (rec_get_miss_any env st userID Hu) as [(e & He & _) | Hok];
      rewrite ?He, ?Hok in Hget; [discriminate |].
    injection Hget as <- <-. apply rec_get_hit. simpl. apply lookup_insert_eq.
Qed.

Lemma co_get_again (env env' : unit) st userID r st' :
  CacheOnly.getUserProgress env st userID = (Ok r, st') →
  CacheOnly.getUserProgress env' st' userID = (Ok r, st').
Proof.
  intros Hget. destruct (co_get_ok env st userID) as (r0 & st0 & Hget0 & Hcached).
  rewrite Hget0 in Hget. injection Hget as <- <-.
  apply co_get_hit. exact Hcached.
Qed.

(** X19: the task command and the progress command can be asked again.
    Asked a second time with nothing in between, each sends what it sent
    the first time and leaves the state as the first call left it: always
    in the build over the cache alone, and in the build over the table
    whenever the first call's read returned a snapshot (the second call is
    then served from the cache, whatever the store answers). *)
Theorem commands_repeatable :
  (∀ st chatID,
     handleTaskCommand CacheOnly.getUserProgress CacheOnly.deref tt
       (handleTaskCommand CacheOnly.getUserProgress CacheOnly.deref tt st chatID).2 chatID
       = handleTaskCommand CacheOnly.getUserProgress CacheOnly.deref tt st chatID ∧
     showProgress CacheOnly.getUserProgress CacheOnly.deref tt
       (showProgress CacheOnly.getUserProgress CacheOnly.deref tt st chatID).2 chatID
       = showProgress CacheOnly.getUserProgress CacheOnly.deref tt st chatID) ∧
  (∀ env env' st chatID r st1,
     Reconciled.getUserProgress env st chatID = (Ok r, st1) →
     handleTaskCommand Reconciled.getUserProgress Reconciled.deref env'
       (handleTaskCommand Reconciled.getUserProgress Reconciled.deref env st chatID).2 chatID
       = handleTaskCommand Reconciled.getUserProgress Reconciled.deref env st chatID ∧
     showProgress Reconciled.getUserProgress Reconciled.deref env'
       (showProgress Reconciled.getUserProgress Reconciled.deref env st chatID).2 chatID
       = showProgress Reconciled.getUserProgress Reconciled.deref env st chatID).
Proof.
  split.
  - intros st chatID. destruct (co_get_ok tt st chatID) as (r & st1 & Hget & _). split.
    + apply (handleTaskCommand_again _ _ co_get_again tt tt st chatID r st1 Hget).
    + apply (showProgress_again _ _ co_get_again tt tt st chatID r st1 Hget).
  - intros env env' st chatID r st1 Hget. split.
    + apply (handleTaskCommand_again _ _ rec_get_again env env' st chatID r st1 Hget).
    + apply (showProgress_again _ _ rec_get_again env env' st chatID r st1 Hget).
Qed.

(** The task command of user 42 while the store answers, then again while
    it is down. *)
Lemma commands_repeatable_witness :
  handleTaskCommand Reconciled.getUserProgress Reconciled.deref Reconciled.outage
    (handleTaskCommand Reconciled.getUserProgress Reconciled.deref Reconciled.healthy
       (Reconciled.init {[42 := {[1 := true]}]}) 42).2 42
  = handleTaskCommand Reconciled.getUserProgress Reconciled.deref Reconciled.healthy
      (Reconciled.init {[42 := {[1 := true]}]}) 42.
Proof.
  assert (Hget :
    Reconciled.getUserProgress Reconciled.healthy
      (Reconciled.init {[42 := {[1 := true]}]}) 42
    = (Ok 0%nat,
       (Reconciled.getUserProgress Reconciled.healthy
          (Reconciled.init {[42 := {[1 := true]}]}) 42).2)).
  { vm_compute. reflexivity. }
  destruct commands_repeatable as [_ Hrec].
  destruct (Hrec Reconciled.healthy Reconciled.outage _ 42 _ _ Hget) as [Htask _].
  exact Htask.
Defined.

(** X20: a user the process has not seen starts at the head of the
    catalog.  In the build over the cache alone a user with no cache entry
    reads an empty map, is sent the first catalog task by the task command
    and a report with a solved count of zero by the progress command; so
    does, in the build over the table, a user with no cache entry and no
    rows when the store answers the read. *)
Theorem new_user_starts_at_first_task first :
  head getTasks = Some first →
  (∀ st chatID,
     CacheOnly.progressCache st !! chatID = None →
     CacheOnly.readContent st chatID = Ok ∅ ∧
     (handleTaskCommand CacheOnly.getUserProgress CacheOnly.deref tt st chatID).1
       = [sendTask chatID first] ∧
     (showProgress CacheOnly.getUserProgress CacheOnly.deref tt st chatID).1
       = [SendMessage chatID (progressText ∅)]) ∧
  (∀ env st chatID,
     Reconciled.progressCache st !! chatID = None →
     default ∅ (Reconciled.db st !! chatID) = ∅ →
     Reconciled.onQuery env = Reconciled.QueryReturns None →
     Reconciled.readContent env st chatID = Ok ∅ ∧
     (handleTaskCommand Reconciled.getUserProgress Reconciled.deref env st chatID).1
       = [sendTask chatID first] ∧
     (showProgress Reconciled.getUserProgress Reconciled.deref env st chatID).1
       = [SendMessage chatID (progressText ∅)]) ∧
  progressText ∅ =
    "Ваш прогресс: 📊" +:+ Go.newline +:+ Go.newline +:+
    "Решено задач: 0/5" +:+ Go.newline +:+ "Прогресс: 0.0%".
Proof.
  intros Hfirst. injection Hfirst as <-.
  split; [| split; [| vm_compute; reflexivity]].
  - intros st chatID Hmiss.
    assert (Hempty : CacheOnly.deref
                       (CacheOnly.mkState (CacheOnly.heap st ++ [∅])
                          (<[chatID := length (CacheOnly.heap st)]>
                             (CacheOnly.progressCache st)))
                       (length (CacheOnly.heap st)) = ∅).
    { unfold CacheOnly.deref. simpl. rewrite lookup_app_r by lia.
      rewrite Nat.sub_diag. reflexivity. }
    split; [apply co_readContent_miss; exact Hmiss |].
    unfold handleTaskCommand, getNextTask, showProgress.
    rewrite (co_get_miss tt st chatID Hmiss), Hempty. split; reflexivity.
  - intros env st chatID Hmiss Hrows Hq.
    pose proof (rec_get_miss_healthy env st chatID Hmiss Hq) as Hget.
    pose proof (deref_loaded st chatID) as Hd. rewrite Hrows in Hd.
    unfold Reconciled.readContent, handleTaskCommand, getNextTask, showProgress.
    rewrite Hget, Hd. repeat split.
Qed.

(** User 42 at start-up of the build over the cache alone. *)
Lemma new_user_starts_at_first_task_witness :
  (handleTaskCommand CacheOnly.getUserProgress CacheOnly.deref tt CacheOnly.init 42).1
  = [sendTask 42 (mkTask 1 "Какой оператор используется для объявления переменной в Go?"
                    "var" ["let"; "const"; "var"; "define"])].
Proof.
  destruct (new_user_starts_at_first_task
              (mkTask 1 "Какой оператор используется для объявления переменной в Go?"
                 "var" ["let"; "const"; "var"; "define"]) eq_refl) as (Hco & _ & _).
  destruct (Hco CacheOnly.init 42 eq_refl) as (_ & Htask & _).
  exact Htask.
Defined.


(** ** A correct answer when the table cannot be read back *)

(** X22: in the build over the table, when the store accepts the write of
    a correct answer and then fails the read that follows, the table holds
    the task as solved, the sender gets the "correct" feedback, the read
    error is logged, and the sender is sent the closing message, whatever
    tasks are left. *)
Theorem correct_answer_then_read_failure env st query task :
  Reconciled.onExec env = Reconciled.ExecOk →
  Reconciled.onQuery env = Reconciled.QueryFails →
  task ∈ getTasks →
  Data query = callbackData task (Answer task) →
  ∃ st',
    handleCallbackQuery Reconciled.getUserProgress Reconciled.saveUserProgress
      Reconciled.deref env st query =
      ([AnswerCallback (QueryID query) msgCorrect; Log logProgressError;
        SendMessage (From query) msgNoMoreTasks], st') ∧
    Reconciled.stored (Reconciled.db st') (From query) (ID task) = Some true ∧
    Reconciled.progressCache st' !! From query = None.
Proof.
  intros Hok Hq Hin Hdata.
  assert (Hparse : parseCallback (Data query) = Some (ID task, Answer task)).
  { rewrite Hdata. apply parseCallback_encode, getTasks_ids_int. exact Hin. }
  pose proof (findTask_catalog task Hin) as Hfind.
  pose proof (rec_save_state env st (From query) (ID task) true) as Hsave.
  rewrite Hok in Hsave.
  set (st1 := Reconciled.mkState _ _ _) in Hsave.
  assert (Hmiss : Reconciled.progressCache st1 !! From query = None)
    by (subst st1; simpl; apply lookup_delete_eq).
  assert (Hnext : getNextTask Reconciled.getUserProgress Reconciled.deref env st1 (From query)
                  = (None, [Log logProgressError], st1)).
  { unfold getNextTask, Reconciled.getUserProgress. rewrite Hmiss, Hq. reflexivity. }
  rewrite (handleCallbackQuery_correct Reconciled.getUserProgress
             Reconciled.saveUserProgress Reconciled.deref env st query (ID task) task
             Hparse Hfind _ _ _ _ _ Hsave Hnext).
  exists st1. split; [reflexivity |]. split; [| exact Hmiss].
  subst st1. simpl. rewrite stored_upsert, decide_True by done. reflexivity.
Qed.

(** User 42 of the example state answers task 2 correctly while reads fail. *)
Lemma correct_answer_then_read_failure_witness :
  ∃ st',
    handleCallbackQuery Reconciled.getUserProgress Reconciled.saveUserProgress
      Reconciled.deref (Reconciled.mkEnv Reconciled.ExecOk Reconciled.QueryFails)
      Reconciled.sample (mkQuery "q" 42 "2:int") =
      ([AnswerCallback "q" msgCorrect; Log logProgressError;
        SendMessage 42 msgNoMoreTasks], st') ∧
    Reconciled.stored (Reconciled.db st') 42 2 = Some true.
Proof.
  destruct (correct_answer_then_read_failure
              (Reconciled.mkEnv Reconciled.ExecOk Reconciled.QueryFails)
              Reconciled.sample (mkQuery "q" 42 "2:int")
              (mkTask 2 "Какой тип данных используется для целых чисел в Go?"
                 "int" ["integer"; "float"; "int"; "number"])
              eq_refl eq_refl
              ltac:(apply list_elem_of_further, list_elem_of_here) eq_refl)
    as (st' & Hrun & Hstored & _).
  exists st'. split; assumption.
Defined.

(** ** Commands and the cache *)

Section CacheOnlyCommands.
Import CacheOnly.

Lemma co_get_readContent st chatID u :
  wf st → readContent (getUserProgress tt st chatID).2 u = readContent st u.
Proof.
  intros Hwf. destruct (progressCache st !! chatID) as [r0 |] eqn:Hc.
  - rewrite (co_get_hit tt st chatID r0 Hc). reflexivity.
  - rewrite (co_get_miss tt st chatID Hc). simpl.
    destruct (decide (u = chatID)) as [-> | Hne].
    + rewrite (co_readContent_miss st chatID Hc).
      rewrite (co_readContent_hit _ chatID (length (heap st)))
        by (simpl; apply lookup_insert_eq).
      unfold deref. simpl. rewrite lookup_app_r by lia.
      rewrite Nat.sub_diag. reflexivity.
    + destruct (progressCache st !! u) as [r |] eqn:Hu.
      * rewrite (co_readContent_hit st u r Hu).
        rewrite (co_readContent_hit _ u r)
          by (simpl; rewrite lookup_insert_ne by congruence; exact Hu).
        unfold deref. simpl. rewrite lookup_app_l by (apply (Hwf u r Hu)). reflexivity.
      * rewrite (co_readContent_miss st u Hu).
        apply co_readContent_miss. simpl. rewrite lookup_insert_ne by congruence. exact Hu.
Qed.

End CacheOnlyCommands.

(** X23: in the build over the cache alone no command changes anyone's
    progress.  From a well-formed state, after any command of any chat,
    every user reads the same content as before; the only change a command
    can make is to give its chat an empty map when it had none. *)
Theorem commands_keep_progress st chatID command u :
  CacheOnly.wf st →
  CacheOnly.readContent
    (handleCommand CacheOnly.getUserProgress CacheOnly.deref tt st chatID command).2 u
  = CacheOnly.readContent st u.
Proof.
  intros Hwf.
  assert (H : CacheOnly.wf
                (handleCommand CacheOnly.getUserProgress CacheOnly.deref tt st chatID
                   command).2 ∧
              CacheOnly.readContent
                (handleCommand CacheOnly.getUserProgress CacheOnly.deref tt st chatID
                   command).2 u = CacheOnly.readContent st u).
  { apply (handleCommand_keeps CacheOnly.getUserProgress CacheOnly.deref
             (λ s, CacheOnly.wf s ∧ CacheOnly.readContent s u = CacheOnly.readContent st u)).
    - intros [] s c [Hwfs Hs]. split; [apply co_get_wf; exact Hwfs |].
      rewrite co_get_readContent by exact Hwfs. exact Hs.
    - split; [exact Hwf | reflexivity]. }
  apply H.
Qed.

(** User 7 after the task command of user 42 at start-up. *)
Lemma commands_keep_progress_witness :
  CacheOnly.readContent
    (handleCommand CacheOnly.getUserProgress CacheOnly.deref tt CacheOnly.init 42 "task").2 7
  = CacheOnly.readContent CacheOnly.init 7.
Proof.
  apply (commands_keep_progress CacheOnly.init 42 "task" 7). apply co_init_wf.
Defined.
